(** * ScmGame: the turn-resolution engine of [advanced-scm-game.tsx]

    A shallow embedding of the game logic of
    [src/components/advanced-scm-game.tsx]: the global market conversion,
    the supplier catalogue, the AI ordering policy [aiStrategy], the
    decision handlers and the state transition [nextTurn].

    Numbers.  A TypeScript [number] is modelled as an exact rational
    ([Q]): every arithmetic formula of the source is kept as written, with
    its operations in the order of the source, and rounding error of IEEE
    doubles is not modelled.  What is proved of the formulas a step applies
    carries over to doubles; a closed identity between running sums does
    not, and module [Doubles] embeds the ledger step over binary64 floats
    to show where the two part.  [Math.round] is [floor (x + 1/2)], as
    ECMAScript defines it.  Where the source would read [undefined] out of
    an array and go on computing with [NaN], the model stops with
    [NaNRead]; where it would dereference [undefined], the model stops with
    [TypeError], which is what the engine throws.

    Randomness.  [Math.random ()] is the only effect of the engine besides
    the in-place update of the state.  It is modelled by a stream of draws
    [rnd : nat -> Q] and a cursor counting the draws made so far. *)

From Stdlib Require Import QArith Qround Qminmax ZArith Lia Lqa String.
From Stdlib Require PrimFloat FloatOps SpecFloat.
From stdpp Require Import base list.

#[local] Set Warnings "-inexact-float".

Open Scope Q_scope.

(** ** JavaScript primitives *)

Definition Math_round (x : Q) : Q := inject_Z (Qfloor (x + 0.5)).
Definition Math_floor (x : Q) : Q := inject_Z (Qfloor x).
Definition Math_max (x y : Q) : Q := Qmax x y.
Definition Math_min (x y : Q) : Q := Qmin x y.

(** [x < y] and [x >= y] as the booleans the source branches on. *)
Definition Qltb (x y : Q) : bool := negb (Qle_bool y x).
Definition Qgeb (x y : Q) : bool := Qle_bool y x.

Definition ofNat (n : nat) : Q := inject_Z (Z.of_nat n).

(** [xs.reduce((a, b) => a + b, 0)] *)
Definition sum (xs : list Q) : Q := fold_left Qplus xs 0.

(** ** Outcomes of a call *)

Inductive Error :=
| NotFound (productId : nat)   (* [throw new Error(`Product with id ... not found`)] *)
| TypeError                    (* a property read on [undefined] *)
| NaNRead.                     (* an out-of-range array read, [NaN] from there on *)

Inductive Result (A : Type) :=
| Ok (a : A)
| Throw (e : Error).
Arguments Ok {A} a.
Arguments Throw {A} e.

Definition fromOption {A} (e : Error) (o : option A) : Result A :=
  match o with Some a => Ok a | None => Throw e end.

(** ** Static tables *)

Inductive Lifecycle := introduction | growth | maturity | decline.
Inductive Season := spring | summer | autumn | winter.
Inductive Country := USA | Japan | EU | China.

Record LifecycleFactors := { lf_growth : Q; lf_decline : Q }.

Definition productLifecycle (l : Lifecycle) : LifecycleFactors :=
  match l with
  | introduction => {| lf_growth := 0.1; lf_decline := 0.05 |}
  | growth => {| lf_growth := 0.2; lf_decline := 0.1 |}
  | maturity => {| lf_growth := 0.05; lf_decline := 0.05 |}
  | decline => {| lf_growth := 0; lf_decline := 0.2 |}
  end.

Definition exchangeRates (c : Country) : Q :=
  match c with USA => 1 | Japan => 110 | EU => 0.9 | China => 1.3 end.

Definition transportCosts (c : Country) : Q :=
  match c with USA => 1 | Japan => 1.2 | EU => 1.1 | China => 1.3 end.

Definition simulateGlobalMarket (baselineDemand : Q) (country : Country) : Q :=
  Math_round (baselineDemand * exchangeRates country * transportCosts country).

Record Supplier := {
  s_id : nat;
  s_name : string;
  quality : Q;
  cost : Q;
  reliability : Q
}.

Definition suppliers : list Supplier :=
  [ {| s_id := 1; s_name := "サプライヤーA"; quality := 0.9; cost := 1.1; reliability := 0.95 |};
    {| s_id := 2; s_name := "サプライヤーB"; quality := 0.8; cost := 0.9; reliability := 0.9 |};
    {| s_id := 3; s_name := "サプライヤーC"; quality := 1; cost := 1.2; reliability := 0.98 |} ].

(** [suppliers.find(s => s.id === id)] *)
Definition findSupplier (id : nat) : option Supplier :=
  find (fun s => Nat.eqb (s_id s) id) suppliers.

Record EnvironmentalEvent := { e_name : string; impact : Q }.

Definition events : list EnvironmentalEvent :=
  [ {| e_name := "自然災害"; impact := -0.3 |};
    {| e_name := "政治的混乱"; impact := -0.2 |};
    {| e_name := "技術革新"; impact := 0.2 |};
    {| e_name := "経済ブーム"; impact := 0.3 |} ].

(** ** The game state *)

Record Player := {
  budget : Q;
  score : Q;
  productionCapacity : Q;
  revenue : Q;
  expenses : Q;
  holdingCost : Q;
  stockoutPenalty : Q;
  orderCost : Q;
  rdInvestment : Q;
  facilityInvestment : Q;
  foreignExchangeGain : Q
}.

Record Product := {
  p_id : nat;
  p_name : string;
  inventory : list Q;
  demandHistory : list Q;
  orders : list Q;
  lifecycle : Lifecycle;
  supplier : nat
}.

Record TradeOffer := { from : nat; to : nat; amount : Q }.

Record GameState := {
  turn : nat;
  currentSeason : Season;
  seasonalFactors : Season -> Q;
  products : list Product;
  players : list Player;
  aiScore : Q;
  environmentalEvent : option EnvironmentalEvent;
  tradeOffers : list TradeOffer
}.

Inductive GameMode := easy | normal | hard.

(** Field updates, one per assignment form used by the source. *)

Definition setBudget (b : Q) (p : Player) : Player :=
  {| budget := b; score := score p; productionCapacity := productionCapacity p;
     revenue := revenue p; expenses := expenses p; holdingCost := holdingCost p;
     stockoutPenalty := stockoutPenalty p; orderCost := orderCost p;
     rdInvestment := rdInvestment p; facilityInvestment := facilityInvestment p;
     foreignExchangeGain := foreignExchangeGain p |}.

Definition setRdInvestment (v : Q) (p : Player) : Player :=
  {| budget := budget p; score := score p; productionCapacity := productionCapacity p;
     revenue := revenue p; expenses := expenses p; holdingCost := holdingCost p;
     stockoutPenalty := stockoutPenalty p; orderCost := orderCost p;
     rdInvestment := v; facilityInvestment := facilityInvestment p;
     foreignExchangeGain := foreignExchangeGain p |}.

Definition setFacilityInvestment (v : Q) (p : Player) : Player :=
  {| budget := budget p; score := score p; productionCapacity := productionCapacity p;
     revenue := revenue p; expenses := expenses p; holdingCost := holdingCost p;
     stockoutPenalty := stockoutPenalty p; orderCost := orderCost p;
     rdInvestment := rdInvestment p; facilityInvestment := v;
     foreignExchangeGain := foreignExchangeGain p |}.

Definition setOrders (os : list Q) (p : Product) : Product :=
  {| p_id := p_id p; p_name := p_name p; inventory := inventory p;
     demandHistory := demandHistory p; orders := os;
     lifecycle := lifecycle p; supplier := supplier p |}.

Definition setInventory (inv : list Q) (p : Product) : Product :=
  {| p_id := p_id p; p_name := p_name p; inventory := inv;
     demandHistory := demandHistory p; orders := orders p;
     lifecycle := lifecycle p; supplier := supplier p |}.

Definition setSupplier (sid : nat) (p : Product) : Product :=
  {| p_id := p_id p; p_name := p_name p; inventory := inventory p;
     demandHistory := demandHistory p; orders := orders p;
     lifecycle := lifecycle p; supplier := sid |}.

Definition setLifecycle (l : Lifecycle) (p : Product) : Product :=
  {| p_id := p_id p; p_name := p_name p; inventory := inventory p;
     demandHistory := demandHistory p; orders := orders p;
     lifecycle := l; supplier := supplier p |}.

(** [product.demandHistory.push(demand)] *)
Definition pushDemand (demand : Q) (p : Product) : Product :=
  {| p_id := p_id p; p_name := p_name p; inventory := inventory p;
     demandHistory := demandHistory p ++ [demand]; orders := orders p;
     lifecycle := lifecycle p; supplier := supplier p |}.

Definition setProducts (ps : list Product) (s : GameState) : GameState :=
  {| turn := turn s; currentSeason := currentSeason s;
     seasonalFactors := seasonalFactors s; products := ps; players := players s;
     aiScore := aiScore s; environmentalEvent := environmentalEvent s;
     tradeOffers := tradeOffers s |}.

Definition setPlayers (pl : list Player) (s : GameState) : GameState :=
  {| turn := turn s; currentSeason := currentSeason s;
     seasonalFactors := seasonalFactors s; products := products s; players := pl;
     aiScore := aiScore s; environmentalEvent := environmentalEvent s;
     tradeOffers := tradeOffers s |}.

Definition setAiScore (v : Q) (s : GameState) : GameState :=
  {| turn := turn s; currentSeason := currentSeason s;
     seasonalFactors := seasonalFactors s; products := products s;
     players := players s; aiScore := v;
     environmentalEvent := environmentalEvent s; tradeOffers := tradeOffers s |}.

Definition setTradeOffers (q : list TradeOffer) (s : GameState) : GameState :=
  {| turn := turn s; currentSeason := currentSeason s;
     seasonalFactors := seasonalFactors s; products := products s;
     players := players s; aiScore := aiScore s;
     environmentalEvent := environmentalEvent s; tradeOffers := q |}.

(** [growth - decline] of the stage, as both [aiStrategy] and [nextTurn]
    compute it. *)
Definition lifecycleFactorOf (l : Lifecycle) : Q :=
  lf_growth (productLifecycle l) - lf_decline (productLifecycle l).

(** ** The AI ordering policy *)

Definition aiStrategy (gameState : GameState) (productId : nat) (difficulty : Q)
  : Result Q :=
  match find (fun p => Nat.eqb (p_id p) productId) (products gameState) with
  | None => Throw (NotFound productId)
  | Some product =>
      let history := demandHistory product in
      (* [history[history.length - 1] || 0] *)
      let lastDemand := List.last history 0 in
      let averageDemand :=
        if Nat.ltb 0 (length history)
        then sum history / ofNat (length history)
        else lastDemand in
      let seasonalFactor := seasonalFactors gameState (currentSeason gameState) in
      let lifecycleFactor := lifecycleFactorOf (lifecycle product) in
      let forecastDemand := averageDemand * seasonalFactor * (1 + lifecycleFactor) in
      let desiredInventory := forecastDemand * (1 + 0.2 * difficulty) in
      match players gameState !! 0%nat with
      | None => Throw TypeError
      | Some player0 =>
          match inventory product !! 0%nat with
          | None => Throw NaNRead
          | Some inventory0 =>
              let order := Math_max 0 (desiredInventory - inventory0) in
              let order :=
                Math_min (Math_min order (productionCapacity player0))
                         (Math_floor (budget player0 / 10)) in
              Ok (Math_round order)
          end
      end
  end.

(** ** The turn transition *)

Definition difficultyOf (gameMode : GameMode) : Q :=
  match gameMode with hard => 2 | normal => 1 | easy => 0.5 end.

(** [['spring', 'summer', 'autumn', 'winter'][turn % 4]] *)
Definition seasonOfTurn (turn : nat) : Season :=
  nth (turn mod 4) [spring; summer; autumn; winter] winter.

(** [['USA', 'Japan', 'EU', 'China'][index % 4]] *)
Definition countryOfSlot (index : nat) : Country :=
  nth (index mod 4) [USA; Japan; EU; China] China.

Definition lifecycles : list Lifecycle := [introduction; growth; maturity; decline].

Definition lifecycleIndex (l : Lifecycle) : nat :=
  match l with introduction => 0 | growth => 1 | maturity => 2 | decline => 3 end.

(** [lifecycles[Math.min(currentIndex + 1, lifecycles.length - 1)]] *)
Definition nextLifecycle (l : Lifecycle) : Lifecycle :=
  nth (Nat.min (lifecycleIndex l + 1) (length lifecycles - 1)) lifecycles decline.

Definition baselineDemand : Q := 20.

(** [environmentalEvent ? 1 + environmentalEvent.impact : 1] *)
Definition environmentalFactorOf (ev : option EnvironmentalEvent) : Q :=
  match ev with Some e => 1 + impact e | None => 1 end.

(** The demand one slot realises for a product in the running turn. *)
Definition realizedDemand (seasonalFactor lifecycleFactor environmentalFactor : Q)
    (index : nat) : Q :=
  let globalDemand := simulateGlobalMarket baselineDemand (countryOfSlot index) in
  Math_round (globalDemand * seasonalFactor * (1 + lifecycleFactor) * environmentalFactor).

(** [events[i]] for the integer [i] that [Math.floor] returned. *)
Definition eventAt (i : Z) : option EnvironmentalEvent :=
  if (i <? 0)%Z then None else events !! Z.to_nat i.

(** The long-term effects applied to one player (lines 382-388). *)
Definition applyInvestment (player : Player) : Player :=
  {| budget := budget player - (rdInvestment player + facilityInvestment player);
     score := score player;
     productionCapacity :=
       productionCapacity player + Math_floor (facilityInvestment player / 100);
     revenue := revenue player;
     expenses := expenses player + (rdInvestment player + facilityInvestment player);
     holdingCost := holdingCost player;
     stockoutPenalty := stockoutPenalty player;
     orderCost := orderCost player;
     rdInvestment := 0;
     facilityInvestment := 0;
     foreignExchangeGain := foreignExchangeGain player |}.

(** One [tradeOffers.forEach] iteration (lines 392-396) on the players array. *)
Definition settleOffer (offer : TradeOffer) (pl : list Player) : Result (list Player) :=
  match pl !! from offer with
  | None => Throw TypeError
  | Some payer =>
      if Qgeb (budget payer) (amount offer) then
        let pl1 := <[from offer := setBudget (budget payer - amount offer) payer]> pl in
        match pl1 !! to offer with
        | None => Throw TypeError
        | Some payee =>
            Ok (<[to offer := setBudget (budget payee + amount offer) payee]> pl1)
        end
      else Ok pl
  end.

Fixpoint settleTrades (offers : list TradeOffer) (pl : list Player)
  : Result (list Player) :=
  match offers with
  | [] => Ok pl
  | offer :: rest =>
      match settleOffer offer pl with
      | Ok pl' => settleTrades rest pl'
      | Throw e => Throw e
      end
  end.

Section Engine.

(** The draws of [Math.random ()], in call order. *)
Variable rnd : nat -> Q.

(** A computation that draws random numbers and may throw: the cursor of
    the next draw goes in and comes out. *)
Definition M (A : Type) : Type := nat -> Result (A * nat).

Definition ret {A} (a : A) : M A := fun k => Ok (a, k).

Definition bind {A B} (m : M A) (f : A -> M B) : M B :=
  fun k => match m k with
           | Ok (a, k') => f a k'
           | Throw e => Throw e
           end.

Definition lift {A} (r : Result A) : M A :=
  fun k => match r with Ok a => Ok (a, k) | Throw e => Throw e end.

Definition random : M Q := fun k => Ok (rnd k, S k).

Notation "'let*' x ':=' m 'in' f" := (bind m (fun x => f))
  (at level 10, x name, m at level 100, f at level 200).

(** [indices.forEach(i => body(i))] on a state updated in place. *)
Fixpoint forEachIndex {S} (body : nat -> S -> M S) (indices : list nat) (s : S)
  : M S :=
  match indices with
  | [] => ret s
  | i :: rest => let* s' := body i s in forEachIndex body rest s'
  end.

Definition simulateEnvironmentalEvent : M (option EnvironmentalEvent) :=
  let* r := random in
  if Qltb r 0.1
  then let* r' := random in ret (eventAt (Qfloor (r' * ofNat (length events))))
  else ret None.

(** The body of [newState.players.forEach] (lines 337-361) for the
    product at position [pi] of [newState.products]. *)
Definition playerStep (pi : nat)
    (seasonalFactor lifecycleFactor environmentalFactor : Q)
    (index : nat) (s : GameState) : M GameState :=
  let* product := lift (fromOption TypeError (products s !! pi)) in
  let* player := lift (fromOption TypeError (players s !! index)) in
  let demand :=
    realizedDemand seasonalFactor lifecycleFactor environmentalFactor index in
  let product := pushDemand demand product in
  let* sup := lift (fromOption TypeError (findSupplier (supplier product))) in
  let* inv := lift (fromOption NaNRead (inventory product !! index)) in
  let* ord := lift (fromOption NaNRead (orders product !! index)) in
  let newInventory := Math_max 0 (inv + ord * reliability sup - demand) in
  let dRevenue := Math_min demand inv * 20 * quality sup in
  let dHoldingCost := newInventory * 0.5 in
  let dStockoutPenalty := Math_max 0 (demand - inv) * 2 in
  let dOrderCost := ord * 10 * cost sup in
  let* r := random in
  let player' :=
    {| budget := Math_min (budget player - dOrderCost + dRevenue) 2000;
       score := score player + (dRevenue - dHoldingCost - dStockoutPenalty - dOrderCost);
       productionCapacity := productionCapacity player;
       revenue := revenue player + dRevenue;
       expenses := expenses player + (dHoldingCost + dStockoutPenalty + dOrderCost);
       holdingCost := holdingCost player + dHoldingCost;
       stockoutPenalty := stockoutPenalty player + dStockoutPenalty;
       orderCost := orderCost player + dOrderCost;
       rdInvestment := rdInvestment player;
       facilityInvestment := facilityInvestment player;
       foreignExchangeGain :=
         foreignExchangeGain player + dRevenue * (r * 0.1 - 0.05) |} in
  let product' :=
    setOrders (<[index := 0]> (orders product))
      (setInventory (<[index := newInventory]> (inventory product)) product) in
  ret (setProducts (<[pi := product']> (products s))
         (setPlayers (<[index := player']> (players s)) s)).

(** The lifecycle roll of lines 364-368. *)
Definition lifecycleStep (pi : nat) (s : GameState) : M GameState :=
  let* product := lift (fromOption TypeError (products s !! pi)) in
  let* r := random in
  if Qltb r 0.1
  then ret (setProducts
              (<[pi := setLifecycle (nextLifecycle (lifecycle product)) product]>
                 (products s)) s)
  else ret s.

(** The AI block of lines 370-378. *)
Definition aiStep (gameMode : GameMode) (pi : nat) (s : GameState)
  : Result GameState :=
  match products s !! pi with
  | None => Throw TypeError
  | Some product =>
      match aiStrategy s (p_id product) (difficultyOf gameMode) with
      | Throw e => Throw e
      | Ok aiOrder =>
          match inventory product !! 0%nat, last (demandHistory product) with
          | Some inventory0, Some lastDemand =>
              let aiInventory := Math_max 0 (inventory0 + aiOrder - lastDemand) in
              let aiRevenue := Math_min lastDemand inventory0 * 20 in
              let aiHoldingCost := aiInventory * 0.5 in
              let aiStockoutPenalty := Math_max 0 (lastDemand - inventory0) * 2 in
              let aiOrderCost := aiOrder * 10 in
              Ok (setAiScore
                    (aiScore s
                     + (aiRevenue - aiHoldingCost - aiStockoutPenalty - aiOrderCost)) s)
          | _, _ => Throw NaNRead
          end
      end
  end.

(** The body of [newState.products.forEach] (lines 331-379). *)
Definition productStep (gameMode : GameMode) (pi : nat) (s : GameState)
  : M GameState :=
  let* product := lift (fromOption TypeError (products s !! pi)) in
  let seasonalFactor := seasonalFactors s (currentSeason s) in
  let lifecycleFactor := lifecycleFactorOf (lifecycle product) in
  let environmentalFactor := environmentalFactorOf (environmentalEvent s) in
  let* s1 := forEachIndex
          (playerStep pi seasonalFactor lifecycleFactor environmentalFactor)
          (seq 0 (length (players s))) s in
  let* s2 := lifecycleStep pi s1 in
  lift (aiStep gameMode pi s2).

(** Lines 326-329: the turn counter, the season and the event roll. *)
Definition startTurn (s : GameState) : M GameState :=
  let turn' := (turn s + 1)%nat in
  let* ev := simulateEnvironmentalEvent in
  ret {| turn := turn'; currentSeason := seasonOfTurn turn';
         seasonalFactors := seasonalFactors s; products := products s;
         players := players s; aiScore := aiScore s;
         environmentalEvent := ev; tradeOffers := tradeOffers s |}.

Definition processProducts (gameMode : GameMode) (s : GameState) : M GameState :=
  forEachIndex (productStep gameMode) (seq 0 (length (products s))) s.

Definition nextTurn (gameMode : GameMode) (s : GameState) : M GameState :=
  let* s0 := startTurn s in
  let* s1 := processProducts gameMode s0 in
  let s2 := setPlayers (applyInvestment <$> players s1) s1 in
  let* pl := lift (settleTrades (tradeOffers s2) (players s2)) in
  ret (setTradeOffers [] (setPlayers pl s2)).

End Engine.

(** ** The initial state and the decision handlers *)

Definition newPlayer : Player :=
  {| budget := 1000; score := 0; productionCapacity := 100; revenue := 0;
     expenses := 0; holdingCost := 0; stockoutPenalty := 0; orderCost := 0;
     rdInvestment := 0; facilityInvestment := 0; foreignExchangeGain := 0 |}.

Definition initialSeasonalFactors (season : Season) : Q :=
  match season with spring => 1 | summer => 1.2 | autumn => 0.9 | winter => 0.7 end.

Definition initialState : GameState :=
  {| turn := 1;
     currentSeason := spring;
     seasonalFactors := initialSeasonalFactors;
     products :=
       [ {| p_id := 1; p_name := "製品A"; inventory := [50]; demandHistory := [];
            orders := [0]; lifecycle := introduction; supplier := 1 |};
         {| p_id := 2; p_name := "製品B"; inventory := [50]; demandHistory := [];
            orders := [0]; lifecycle := growth; supplier := 2 |} ];
     players := [newPlayer];
     aiScore := 0;
     environmentalEvent := None;
     tradeOffers := [] |}.

(** [xs.map((x, index) => index === i ? v : x)] *)
Definition mapAt {A} (i : nat) (f : A -> A) (xs : list A) : list A :=
  imap (fun index x => if Nat.eqb index i then f x else x) xs.

Definition handleOrderChange (playerId productId : nat) (value : Q) (s : GameState)
  : GameState :=
  setProducts
    ((fun product =>
        if Nat.eqb (p_id product) productId
        then setOrders (mapAt playerId (fun _ => value) (orders product)) product
        else product) <$> products s) s.

Inductive InvestmentKind := rd | facility.

Definition handleInvestmentChange (playerId : nat) (kind : InvestmentKind) (value : Q)
    (s : GameState) : GameState :=
  setPlayers
    (mapAt playerId
       (match kind with
        | rd => setRdInvestment value
        | facility => setFacilityInvestment value
        end) (players s)) s.

Definition handleSupplierChange (playerId productId supplierId : nat) (s : GameState)
  : GameState :=
  setProducts
    ((fun product =>
        if Nat.eqb (p_id product) productId
        then setSupplier supplierId product
        else product) <$> products s) s.

Definition handleTradeOffer (from_ to_ : nat) (s : GameState) : GameState :=
  setTradeOffers (tradeOffers s ++ [ {| from := from_; to := to_; amount := 100 |} ]) s.

(** The effect run when [playerCount] changes (lines 455-487): grow with
    default players, or truncate, the per-product arrays in lock-step. *)
Definition resizePlayers (playerCount : nat) (s : GameState) : GameState :=
  let n := length (players s) in
  if Nat.ltb n playerCount then
    let playerDiff := (playerCount - n)%nat in
    setProducts
      ((fun product =>
          setOrders (orders product ++ replicate playerDiff 0)
            (setInventory (inventory product ++ replicate playerDiff 50) product))
         <$> products s)
      (setPlayers (players s ++ replicate playerDiff newPlayer) s)
  else if Nat.ltb playerCount n then
    setProducts
      ((fun product =>
          setOrders (take playerCount (orders product))
            (setInventory (take playerCount (inventory product)) product))
         <$> products s)
      (setPlayers (take playerCount (players s)) s)
  else s.

Inductive Command :=
| PlaceOrder (playerId productId : nat) (quantity : Q)
| SetInvestment (playerId : nat) (kind : InvestmentKind) (value : Q)
| SetSupplierChoice (playerId productId supplierId : nat)
| QueueTradeOffer (fromPlayer toPlayer : nat)
| ResizePlayers (playerCount : nat).

Definition runCommand (c : Command) (s : GameState) : GameState :=
  match c with
  | PlaceOrder playerId productId quantity =>
      handleOrderChange playerId productId quantity s
  | SetInvestment playerId kind value => handleInvestmentChange playerId kind value s
  | SetSupplierChoice playerId productId supplierId =>
      handleSupplierChange playerId productId supplierId s
  | QueueTradeOffer fromPlayer toPlayer => handleTradeOffer fromPlayer toPlayer s
  | ResizePlayers playerCount => resizePlayers playerCount s
  end.

(** ** The specification's step formulas

    Section 4.7 of the specification, steps (c) to (f), in its words.  These
    definitions are what the properties below compare the engine with. *)

Definition specNewInventory (inv ord : Q) (sup : Supplier) (demand : Q) : Q :=
  Qmax 0 (inv + ord * reliability sup - demand).

Definition specRevenue (inv : Q) (sup : Supplier) (demand : Q) : Q :=
  Qmin demand inv * 20 * quality sup.

Definition specHoldingCost (newInventory : Q) : Q := newInventory * 0.5.

Definition specStockoutPenalty (inv demand : Q) : Q := Qmax 0 (demand - inv) * 2.

Definition specOrderCost (ord : Q) (sup : Supplier) : Q := ord * 10 * cost sup.

(** Step (f): the ledger of one player after one (product, slot) step;
    [jitter] is the draw of [uniform(-0.05, 0.05)]. *)
Definition specLedger (pl : Player) (sup : Supplier) (inv ord demand jitter : Q)
  : Player :=
  let newInventory := specNewInventory inv ord sup demand in
  let rev := specRevenue inv sup demand in
  let hold := specHoldingCost newInventory in
  let pen := specStockoutPenalty inv demand in
  let oc := specOrderCost ord sup in
  {| budget := Qmin (budget pl - oc + rev) 2000;
     score := score pl + (rev - hold - pen - oc);
     productionCapacity := productionCapacity pl;
     revenue := revenue pl + rev;
     expenses := expenses pl + (hold + pen + oc);
     holdingCost := holdingCost pl + hold;
     stockoutPenalty := stockoutPenalty pl + pen;
     orderCost := orderCost pl + oc;
     rdInvestment := rdInvestment pl;
     facilityInvestment := facilityInvestment pl;
     foreignExchangeGain := foreignExchangeGain pl + rev * jitter |}.

(** Steps (a) to (f) for slot [j] of product [p], given the season and
    event multipliers of the turn. *)
Definition specSlotStep (seasonalFactor environmentalFactor : Q) (j : nat)
    (jitter : Q) (p : Product) (pl : Player) : option Player :=
  sup ← findSupplier (supplier p);
  inv ← inventory p !! j;
  ord ← orders p !! j;
  Some (specLedger pl sup inv ord
          (realizedDemand seasonalFactor (lifecycleFactorOf (lifecycle p))
             environmentalFactor j)
          jitter).

(** The ledger of slot [j] after step 2 has run over the products [ps], in
    order; [jitter i] is the exchange-rate draw made for the [i]-th of
    them. *)
Fixpoint specLedgerRun (seasonalFactor environmentalFactor : Q) (j : nat)
    (jitter : nat -> Q) (i : nat) (ps : list Product) (pl : Player)
  : option Player :=
  match ps with
  | [] => Some pl
  | p :: rest =>
      pl' ← specSlotStep seasonalFactor environmentalFactor j (jitter i) p pl;
      specLedgerRun seasonalFactor environmentalFactor j jitter (S i) rest pl'
  end.

(** Step 6 in the specification's words: what one offer does to the
    budgets.  [i] gives [amt] away if it is the payer and receives [amt] if
    it is the recipient; nothing else of a player changes. *)
Definition transferred (o : TradeOffer) (pl pl' : list Player) : Prop :=
  length pl' = length pl ∧
  ∀ i p, pl !! i = Some p →
    ∃ p', pl' !! i = Some p' ∧
      budget p' ==
        budget p - (if Nat.eqb i (from o) then amount o else 0)
                 + (if Nat.eqb i (to o) then amount o else 0) ∧
      setBudget (budget p) p' = p.

Inductive settled : list TradeOffer -> list Player -> list Player -> Prop :=
| settled_nil pl : settled [] pl pl
| settled_paid o os pl payer pl1 pl' :
    pl !! from o = Some payer ->
    amount o <= budget payer ->
    transferred o pl pl1 ->
    settled os pl1 pl' ->
    settled (o :: os) pl pl'
| settled_dropped o os pl payer pl' :
    pl !! from o = Some payer ->
    ~ amount o <= budget payer ->
    settled os pl pl' ->
    settled (o :: os) pl pl'.

(** The AI's shadow outcome as the specification words it: steps (c) to (e)
    with the supplier's multipliers, on an inventory, a demand and the AI's
    order. *)
Definition specAiOutcome (sup : Supplier) (inventory0 demand0 aiOrder : Q) : Q :=
  specRevenue inventory0 sup demand0
  - specHoldingCost (specNewInventory inventory0 aiOrder sup demand0)
  - specStockoutPenalty inventory0 demand0
  - specOrderCost aiOrder sup.

(** What lines 372-378 compute: the same steps with no supplier multiplier. *)
Definition aiOutcome (inventory0 lastDemand aiOrder : Q) : Q :=
  Qmin lastDemand inventory0 * 20
  - Qmax 0 (inventory0 + aiOrder - lastDemand) * 0.5
  - Qmax 0 (lastDemand - inventory0) * 2
  - aiOrder * 10.

(** ** Reachable states

    The states the game can be in, each with the investment amounts the
    turns played so far have applied to every seated player. *)

Definition appliedAfterResize (playerCount : nat) (applied : list Q) : list Q :=
  take playerCount applied ++ replicate (playerCount - length applied) 0.

Definition appliedAfter (c : Command) (applied : list Q) : list Q :=
  match c with
  | ResizePlayers playerCount => appliedAfterResize playerCount applied
  | _ => applied
  end.

Definition appliedAfterTurn (pl : list Player) (applied : list Q) : list Q :=
  zip_with (fun a p => a + (rdInvestment p + facilityInvestment p)) applied pl.

Inductive reachable : GameState -> list Q -> Prop :=
| reachable_initial : reachable initialState [0]
| reachable_command c s applied :
    reachable s applied ->
    reachable (runCommand c s) (appliedAfter c applied)
| reachable_turn rnd gameMode k s applied s' k' :
    reachable s applied ->
    nextTurn rnd gameMode s k = Ok (s', k') ->
    reachable s' (appliedAfterTurn (players s) applied).

(** The two accounting identities of the ledger, for a player to whom
    investments worth [applied] have been charged, read over the exact
    rationals of this model. *)
Definition ledgerBalanced (applied : Q) (p : Player) : Prop :=
  score p == revenue p - holdingCost p - stockoutPenalty p - orderCost p ∧
  expenses p == holdingCost p + stockoutPenalty p + orderCost p + applied.

(** The multiplier tables as the specification describes them. *)
Definition specMarketTables : Prop :=
  (∀ baseline c,
     simulateGlobalMarket baseline c
     = Math_round (baseline * exchangeRates c * transportCosts c)) ∧
  exchangeRates USA == 1 ∧ transportCosts USA == 1 ∧
  (∀ c, c ≠ USA → 1 < exchangeRates c ∧ 1 < transportCosts c) ∧
  (∀ c c', c ≠ c' → ¬ exchangeRates c == exchangeRates c'
                    ∧ ¬ transportCosts c == transportCosts c').

(** A stream of draws under which no event and no lifecycle advance occur
    and the exchange-rate jitter is zero. *)
Definition calm : nat -> Q := fun _ => 0.5.

(** ** What the loops of a turn leave behind

    The exchange-rate jitter drawn for slot [j] of the [i]-th product, when
    the product loop starts with the cursor at [k] and [np] players are
    seated: every product makes one draw per slot and one lifecycle roll. *)
Definition jitterAt (rnd : nat -> Q) (k np j i : nat) : Q :=
  rnd (k + i * S np + j)%nat * 0.1 - 0.05.

(** The first [n] iterations of the player loop of one product: [p] and [pl]
    are the product and the players when the loop starts with the cursor at
    [k], [p'] and [pl'] what the [n] iterations leave. *)
Record SlotsProcessed (rnd : nat -> Q) (seasonalFactor lifecycleFactor
    environmentalFactor : Q) (n k : nat) (p p' : Product)
    (pl pl' : list Player) : Prop := {
  sp_id : p_id p' = p_id p;
  sp_name : p_name p' = p_name p;
  sp_lifecycle : lifecycle p' = lifecycle p;
  sp_supplier : supplier p' = supplier p;
  sp_history :
    demandHistory p'
    = demandHistory p
      ++ (realizedDemand seasonalFactor lifecycleFactor environmentalFactor
            <$> seq 0 n);
  sp_inventory_length : length (inventory p') = length (inventory p);
  sp_orders_length : length (orders p') = length (orders p);
  sp_players_length : length pl' = length pl;
  sp_rest : ∀ j, (n ≤ j)%nat →
    inventory p' !! j = inventory p !! j ∧ orders p' !! j = orders p !! j
    ∧ pl' !! j = pl !! j;
  sp_done : ∀ j, (j < n)%nat →
    ∃ sup inv ord player,
      findSupplier (supplier p) = Some sup ∧ inventory p !! j = Some inv
      ∧ orders p !! j = Some ord ∧ pl !! j = Some player
      ∧ let demand :=
          realizedDemand seasonalFactor lifecycleFactor environmentalFactor j in
        inventory p' !! j = Some (specNewInventory inv ord sup demand)
        ∧ orders p' !! j = Some 0
        ∧ pl' !! j
          = Some (specLedger player sup inv ord demand (rnd (k + j)%nat * 0.1 - 0.05))
}.

(** What one iteration of the product loop does to its product, [np]
    players being seated: [p] is the product before, [p'] after. *)
Record SlotsSold (seasonalFactor environmentalFactor : Q) (np : nat)
    (p p' : Product) : Prop := {
  ss_id : p_id p' = p_id p;
  ss_name : p_name p' = p_name p;
  ss_supplier : supplier p' = supplier p;
  ss_lifecycle :
    lifecycle p' = lifecycle p ∨ lifecycle p' = nextLifecycle (lifecycle p);
  ss_history :
    demandHistory p'
    = demandHistory p
      ++ (realizedDemand seasonalFactor (lifecycleFactorOf (lifecycle p))
            environmentalFactor <$> seq 0 np);
  ss_rest : ∀ j, (np ≤ j)%nat →
    inventory p' !! j = inventory p !! j ∧ orders p' !! j = orders p !! j;
  ss_done : ∀ j, (j < np)%nat →
    ∃ sup inv ord,
      findSupplier (supplier p) = Some sup ∧ inventory p !! j = Some inv
      ∧ orders p !! j = Some ord
      ∧ inventory p' !! j
        = Some (specNewInventory inv ord sup
                  (realizedDemand seasonalFactor (lifecycleFactorOf (lifecycle p))
                     environmentalFactor j))
      ∧ orders p' !! j = Some 0
}.

(** The first [n] iterations of the product loop, started on [s] with the
    cursor at [k], leave [s']. *)
Record ProductsProcessed (rnd : nat -> Q) (n k : nat) (s s' : GameState)
  : Prop := {
  pp_turn : turn s' = turn s;
  pp_season : currentSeason s' = currentSeason s;
  pp_factors : seasonalFactors s' = seasonalFactors s;
  pp_event : environmentalEvent s' = environmentalEvent s;
  pp_offers : tradeOffers s' = tradeOffers s;
  pp_products_length : length (products s') = length (products s);
  pp_players_length : length (players s') = length (players s);
  pp_rest : ∀ pi, (n ≤ pi)%nat → products s' !! pi = products s !! pi;
  pp_done : ∀ pi, (pi < n)%nat →
    ∃ p p', products s !! pi = Some p ∧ products s' !! pi = Some p'
            ∧ SlotsSold (seasonalFactors s (currentSeason s))
                (environmentalFactorOf (environmentalEvent s))
                (length (players s)) p p';
  pp_players : ∀ j player, players s !! j = Some player →
    players s' !! j
    = specLedgerRun (seasonalFactors s (currentSeason s))
        (environmentalFactorOf (environmentalEvent s)) j
        (jitterAt rnd k (length (players s)) j) 0 (take n (products s)) player
}.

(** ** Well-formed states

    The invariant of section 3 of the specification, with what a turn needs
    besides: a player is seated, every product names a supplier of the
    catalogue, and every queued offer names seated players. *)
Definition aligned (s : GameState) : Prop :=
  (0 < length (players s))%nat
  ∧ (∀ p, p ∈ products s →
       length (inventory p) = length (players s)
       ∧ length (orders p) = length (players s)
       ∧ is_Some (findSupplier (supplier p)))
  ∧ (∀ o, o ∈ tradeOffers s →
       (from o < length (players s))%nat ∧ (to o < length (players s))%nat).

(** ** The chart of the market tab *)

Record Dataset := {
  d_label : string;
  d_data : list Q;
  d_borderColor : string;
  d_tension : Q
}.

Record ChartData := { labels : list nat; datasets : list Dataset }.

(** [chartData] (lines 445-453): one label per turn counted so far, one
    series per product holding its whole demand history. *)
Definition chartData (gameState : GameState) : ChartData :=
  {| labels := (fun i => i + 1)%nat <$> seq 0 (turn gameState);
     datasets :=
       (fun product =>
          {| d_label := p_name product ++ "の需要";
             d_data := demandHistory product;
             d_borderColor :=
               if Nat.eqb (p_id product) 1
               then "rgb(75, 192, 192)" else "rgb(255, 99, 132)";
             d_tension := 0.1 |}) <$> products gameState |}.

(** ** The amounts of a step

    What one (product, slot) step adds to the four accumulators of the
    ledger, by steps (c) to (e) of the specification. *)
Record StepAmounts := {
  a_revenue : Q;
  a_holdingCost : Q;
  a_stockoutPenalty : Q;
  a_orderCost : Q
}.

Definition stepAmounts (seasonalFactor environmentalFactor : Q) (j : nat)
    (p : Product) : option StepAmounts :=
  sup ← findSupplier (supplier p);
  inv ← inventory p !! j;
  ord ← orders p !! j;
  let demand :=
    realizedDemand seasonalFactor (lifecycleFactorOf (lifecycle p))
      environmentalFactor j in
  Some {| a_revenue := specRevenue inv sup demand;
          a_holdingCost := specHoldingCost (specNewInventory inv ord sup demand);
          a_stockoutPenalty := specStockoutPenalty inv demand;
          a_orderCost := specOrderCost ord sup |}.

(** ** The ledger step over IEEE doubles

    The numbers of the program are binary64 floats.  This module embeds the
    demand of a slot (lines 338-340), the body of the player loop (lines
    343-356) and the investment step (lines 383-387) over the primitive
    floats of Rocq, operation for operation, to evaluate the ledger the
    program itself stores. *)
Module Doubles.
Import PrimFloat.
#[local] Open Scope float_scope.

Definition isNaN (x : float) : bool := negb (x =? x).

(** Negative, the zero [-0] included. *)
Definition isNegative (x : float) : bool := (x <? 0) || (1 / x <? 0).

(** Below [2^52] a double may have a fraction; adding and subtracting
    [2^52] rounds it to the nearest integer, which is the floor or the
    integer above it. *)
Definition two52 : float := 4503599627370496.

Definition Math_floor (x : float) : float :=
  if (abs x <? two52) && negb (x =? 0) then
    let r := if 0 <? x then (x + two52) - two52 else (x - two52) + two52 in
    if x <? r then r - 1 else r
  else x.

(** The nearest integer, a tie going up; [-0] for a negative argument that
    rounds to zero. *)
Definition Math_round (x : float) : float :=
  let f := Math_floor x in
  let r := if x - f <? 0.5 then f else f + 1 in
  if (r =? 0) && isNegative x then -0 else r.

Definition Math_max (x y : float) : float :=
  if isNaN x || isNaN y then nan
  else if x <? y then y
  else if y <? x then x
  else if isNegative x then y else x.

Definition Math_min (x y : float) : float :=
  if isNaN x || isNaN y then nan
  else if x <? y then x
  else if y <? x then y
  else if isNegative x then x else y.

(** The rational a finite double stands for. *)
Definition exact (x : float) : Q :=
  match FloatOps.Prim2SF x with
  | SpecFloat.S754_finite s m e =>
      ((if s then -1 else 1) * inject_Z (Zpos m) * 2 ^ e)%Q
  | _ => 0%Q
  end.

Definition lifecycleFactorOf (l : Lifecycle) : float :=
  match l with
  | introduction => 0.1 - 0.05
  | growth => 0.2 - 0.1
  | maturity => 0.05 - 0.05
  | decline => 0 - 0.2
  end.

Definition exchangeRates (c : Country) : float :=
  match c with USA => 1 | Japan => 110 | EU => 0.9 | China => 1.3 end.

Definition transportCosts (c : Country) : float :=
  match c with USA => 1 | Japan => 1.2 | EU => 1.1 | China => 1.3 end.

Definition simulateGlobalMarket (baselineDemand : float) (country : Country) : float :=
  Math_round (baselineDemand * exchangeRates country * transportCosts country).

Definition seasonalFactors (season : Season) : float :=
  match season with spring => 1 | summer => 1.2 | autumn => 0.9 | winter => 0.7 end.

Definition realizedDemand (seasonalFactor lifecycleFactor environmentalFactor : float)
    (index : nat) : float :=
  let globalDemand := simulateGlobalMarket 20 (countryOfSlot index) in
  Math_round (globalDemand * seasonalFactor * (1 + lifecycleFactor) * environmentalFactor).

Record Supplier := {
  s_id : nat;
  quality : float;
  cost : float;
  reliability : float
}.

Definition suppliers : list Supplier :=
  [ {| s_id := 1; quality := 0.9; cost := 1.1; reliability := 0.95 |};
    {| s_id := 2; quality := 0.8; cost := 0.9; reliability := 0.9 |};
    {| s_id := 3; quality := 1; cost := 1.2; reliability := 0.98 |} ].

Definition findSupplier (id : nat) : option Supplier :=
  find (fun s => Nat.eqb (s_id s) id) suppliers.

Record Player := {
  budget : float;
  score : float;
  productionCapacity : float;
  revenue : float;
  expenses : float;
  holdingCost : float;
  stockoutPenalty : float;
  orderCost : float;
  rdInvestment : float;
  facilityInvestment : float;
  foreignExchangeGain : float
}.

Definition newPlayer : Player :=
  {| budget := 1000; score := 0; productionCapacity := 100; revenue := 0;
     expenses := 0; holdingCost := 0; stockoutPenalty := 0; orderCost := 0;
     rdInvestment := 0; facilityInvestment := 0; foreignExchangeGain := 0 |}.

(** Lines 343-360 for one player and the slot of that player in one
    product: the ledger after the step, the inventory entry and the order
    entry it writes back.  [r] is the draw of line 357. *)
Definition playerStep (sup : Supplier) (demand r : float) (player : Player)
    (inv ord : float) : Player * float * float :=
  let newInventory := Math_max 0 (inv + ord * reliability sup - demand) in
  let dRevenue := Math_min demand inv * 20 * quality sup in
  let dHoldingCost := newInventory * 0.5 in
  let dStockoutPenalty := Math_max 0 (demand - inv) * 2 in
  let dOrderCost := ord * 10 * cost sup in
  ({| budget := Math_min (budget player - dOrderCost + dRevenue) 2000;
      score := score player + (dRevenue - dHoldingCost - dStockoutPenalty - dOrderCost);
      productionCapacity := productionCapacity player;
      revenue := revenue player + dRevenue;
      expenses := expenses player + (dHoldingCost + dStockoutPenalty + dOrderCost);
      holdingCost := holdingCost player + dHoldingCost;
      stockoutPenalty := stockoutPenalty player + dStockoutPenalty;
      orderCost := orderCost player + dOrderCost;
      rdInvestment := rdInvestment player;
      facilityInvestment := facilityInvestment player;
      foreignExchangeGain :=
        foreignExchangeGain player + dRevenue * (r * 0.1 - 0.05) |},
   newInventory, 0).

(** Lines 383-387. *)
Definition applyInvestment (player : Player) : Player :=
  {| budget := budget player - (rdInvestment player + facilityInvestment player);
     score := score player;
     productionCapacity :=
       productionCapacity player + Math_floor (facilityInvestment player / 100);
     revenue := revenue player;
     expenses := expenses player + (rdInvestment player + facilityInvestment player);
     holdingCost := holdingCost player;
     stockoutPenalty := stockoutPenalty player;
     orderCost := orderCost player;
     rdInvestment := 0;
     facilityInvestment := 0;
     foreignExchangeGain := foreignExchangeGain player |}.

(** The slot of one player in one product, as far as the ledger reads it. *)
Record Slot := {
  lifecycle : Lifecycle;
  supplier : nat;
  inventory : float;
  order : float
}.

(** The ledger of the player in slot [index] after a turn with no event, an
    empty queue and every draw equal to [r]: the player loop of each product
    in order, then the investments.  A product whose supplier is not in the
    catalogue makes the turn throw. *)
Definition turnLedger (turn' : nat) (index : nat) (r : float) (slots : list Slot)
    (player : Player) : option Player :=
  let seasonalFactor := seasonalFactors (seasonOfTurn turn') in
  let environmentalFactor := 1 in
  option_map applyInvestment
    (fold_left
       (fun acc slot =>
          match acc, findSupplier (supplier slot) with
          | Some pl, Some sup =>
              let demand :=
                realizedDemand seasonalFactor (lifecycleFactorOf (lifecycle slot))
                  environmentalFactor index in
              Some (fst (fst (playerStep sup demand r pl (inventory slot) (order slot))))
          | _, _ => None
          end)
       slots (Some player)).

(** The first turn of a new game after player 0 has ordered [quantity]
    units of product 2: turn 2, products 1 and 2 with 50 units each in
    stock. *)
Definition firstTurnWithOrder (quantity : float) : option Player :=
  turnLedger 2 0 0.5
    [ {| lifecycle := introduction; supplier := 1; inventory := 50; order := 0 |};
      {| lifecycle := growth; supplier := 2; inventory := 50; order := quantity |} ]
    newPlayer.

End Doubles.

(** * Properties *)

(** ** The global market model *)

(** C9, as stated, does not hold: the exchange-rate multiplier of the EU is
    0.9, below 1. *)
Lemma market_tables_counterexample : ¬ specMarketTables.
Proof.
  intros (_ & _ & _ & Hgt & _).
  destruct (Hgt EU) as [Hrate _]; [discriminate |].
  vm_compute in Hrate. discriminate.
Qed.

(** C9, amended: the conversion returns
    [round (baseline * exchangeRate * transportCost)]; both multipliers of
    the home country are 1; every other country has a transport multiplier
    above 1; the exchange-rate multipliers of Japan and China are above 1
    and that of the EU is below 1; the four countries have pairwise distinct
    exchange rates and pairwise distinct transport costs. *)
Theorem market_tables :
  (∀ baseline c,
     simulateGlobalMarket baseline c
     = Math_round (baseline * exchangeRates c * transportCosts c)) ∧
  exchangeRates USA == 1 ∧ transportCosts USA == 1 ∧
  (∀ c, c ≠ USA → 1 < transportCosts c) ∧
  1 < exchangeRates Japan ∧ 1 < exchangeRates China ∧ exchangeRates EU < 1 ∧
  (∀ c c', c ≠ c' → ¬ exchangeRates c == exchangeRates c'
                    ∧ ¬ transportCosts c == transportCosts c').
Proof.
  repeat split; try reflexivity.
  - destruct c; [congruence | reflexivity ..].
  - destruct c, c'; try congruence; intros E; vm_compute in E; discriminate.
  - destruct c, c'; try congruence; intros E; vm_compute in E; discriminate.
Qed.

(** ** The AI ordering policy *)

Lemma find_none_iff {A} (f : A -> bool) (l : list A) :
  find f l = None ↔ ∀ x, x ∈ l → f x = false.
Proof.
  induction l as [| a l IH]; simpl.
  - split; [intros _ x Hx; inversion Hx | reflexivity].
  - destruct (f a) eqn:Hfa.
    + split; [discriminate |].
      intros H. rewrite (H a) in Hfa; [discriminate | left].
    + rewrite IH. split.
      * intros H x Hx. inversion Hx; subst; auto.
      * intros H x Hx. apply H. now right.
Qed.

(** X2: [aiStrategy] throws its "not found" error exactly when no product of the
    state carries the identity asked for. *)
Lemma aiStrategy_NotFound_iff gameState productId difficulty :
  aiStrategy gameState productId difficulty = Throw (NotFound productId)
  ↔ ∀ p, p ∈ products gameState → p_id p ≠ productId.
Proof.
  unfold aiStrategy.
  destruct (find _ (products gameState)) as [product |] eqn:Hfind.
  - split.
    + destruct (players gameState !! 0%nat); [| discriminate].
      destruct (inventory product !! 0%nat); discriminate.
    + intros Hall. apply find_some in Hfind as [Hin Heq].
      apply Nat.eqb_eq in Heq. apply list_elem_of_In in Hin.
      now destruct (Hall product Hin).
  - split; [| reflexivity]. intros _ p Hp.
    apply find_none_iff with (x := p) in Hfind; [| exact Hp].
    now apply Nat.eqb_neq.
Qed.

(** The forecast of section 4.5: the mean of the history (0 when it is
    empty) times the seasonal factor times [1 + growth - decline]. *)
Lemma aiStrategy_formula gameState productId difficulty product player0 inventory0 :
  find (fun p => Nat.eqb (p_id p) productId) (products gameState) = Some product →
  players gameState !! 0%nat = Some player0 →
  inventory product !! 0%nat = Some inventory0 →
  let mean :=
    match demandHistory product with
    | [] => 0
    | h => sum h / ofNat (length h)
    end in
  let forecast :=
    mean * seasonalFactors gameState (currentSeason gameState)
    * (1 + (lf_growth (productLifecycle (lifecycle product))
            - lf_decline (productLifecycle (lifecycle product)))) in
  aiStrategy gameState productId difficulty
  = Ok (Math_round
          (Qmin (Qmin (Qmax 0 (forecast * (1 + 0.2 * difficulty) - inventory0))
                      (productionCapacity player0))
                (Math_floor (budget player0 / 10)))).
Proof.
  intros Hfind Hpl Hinv. unfold aiStrategy. rewrite Hfind, Hpl, Hinv.
  destruct (demandHistory product); reflexivity.
Qed.

(** X4: With a budget and a capacity that are not negative, the order is a
    non-negative integer. *)
Lemma aiStrategy_nonneg gameState productId difficulty player0 order :
  players gameState !! 0%nat = Some player0 →
  0 <= budget player0 → 0 <= productionCapacity player0 →
  aiStrategy gameState productId difficulty = Ok order →
  0 <= order ∧ ∃ z : Z, order = inject_Z z.
Proof.
  intros Hpl Hb Hc. unfold aiStrategy.
  destruct (find _ _) as [product |]; [| discriminate].
  rewrite Hpl. destruct (inventory product !! 0%nat) as [inventory0 |]; [| discriminate].
  intros [= <-]. split; [| eexists; reflexivity].
  unfold Math_round, Math_min, Math_max, Math_floor.
  rewrite <- (Zle_Qle 0). apply Qfloor_resp_le with (x := 0).
  assert (0 <= inject_Z (Qfloor (budget player0 / 10))) as Hfl.
  { rewrite <- (Zle_Qle 0). apply Qfloor_resp_le with (x := 0).
    apply Qle_shift_div_l; [reflexivity | lra]. }
  set (m := Qmin _ _).
  assert (0 <= m) as Hm.
  { subst m. apply Q.min_glb; [apply Q.min_glb |]; auto. apply Q.le_max_l. }
  lra.
Qed.

(** C5: on a state the game reaches, [aiStrategy] returns a negative order.
    After a turn that charged an R&D investment of 2000 to the starting
    budget, player 0 owes 338 and the order for product 1 is -34. *)
Theorem aiStrategy_negative_order :
  ∃ s k player0 order,
    nextTurn calm normal (handleInvestmentChange 0 rd 2000 initialState) 0%nat
    = Ok (s, k) ∧
    players s !! 0%nat = Some player0 ∧ budget player0 == -338 ∧
    aiStrategy s 1 (difficultyOf normal) = Ok order ∧ order == -34.
Proof.
  eexists _, _, _, _. split; [vm_compute; reflexivity |].
  split; [vm_compute; reflexivity |].
  split; [vm_compute; reflexivity |].
  split; vm_compute; reflexivity.
Qed.

(** ** Trade settlement *)

Lemma Qgeb_true x y : Qgeb x y = true ↔ y <= x.
Proof. unfold Qgeb. apply Qle_bool_iff. Qed.

Lemma Qgeb_false x y : Qgeb x y = false ↔ ¬ y <= x.
Proof.
  unfold Qgeb. rewrite <- Qle_bool_iff. destruct (Qle_bool y x); split; congruence.
Qed.

Lemma setBudget_setBudget b b' p : setBudget b (setBudget b' p) = setBudget b p.
Proof. reflexivity. Qed.

Lemma setBudget_same p : setBudget (budget p) p = p.
Proof. now destruct p. Qed.

Ltac same_but_budget :=
  match goal with
  | |- setBudget _ _ = ?p => destruct p; reflexivity
  end.

(** An offer the payer cannot afford leaves the players as they are, and
    raises nothing. *)
Lemma settleOffer_dropped o pl payer :
  pl !! from o = Some payer → ¬ amount o <= budget payer →
  settleOffer o pl = Ok pl.
Proof.
  intros Hpayer Hlt. unfold settleOffer. rewrite Hpayer.
  apply Qgeb_false in Hlt. now rewrite Hlt.
Qed.

(** An offer the payer can afford moves exactly its amount. *)
Lemma settleOffer_paid o pl payer pl' :
  pl !! from o = Some payer → amount o <= budget payer →
  settleOffer o pl = Ok pl' → transferred o pl pl'.
Proof.
  intros Hpayer Hle. unfold settleOffer. rewrite Hpayer.
  apply Qgeb_true in Hle. rewrite Hle.
  assert (from o < length pl)%nat as Hfrom by (eapply lookup_lt_Some; eauto).
  destruct (_ !! to o) as [payee |] eqn:Hpayee; [| discriminate].
  intros [= <-]. split; [now rewrite !length_insert |].
  assert (to o < length pl)%nat as Hto.
  { apply lookup_lt_Some in Hpayee. now rewrite length_insert in Hpayee. }
  intros i p Hi.
  destruct (decide (i = to o)) as [-> | Hnto].
  - rewrite list_lookup_insert_eq by now rewrite length_insert.
    eexists; split; [reflexivity |].
    rewrite Nat.eqb_refl.
    destruct (decide (from o = to o)) as [Heq | Hne].
    + rewrite Heq in Hpayee, Hpayer |- *.
      rewrite list_lookup_insert_eq in Hpayee by exact Hto.
      injection Hpayee as <-. rewrite Hi in Hpayer. injection Hpayer as ->.
      rewrite Nat.eqb_refl. simpl. split; [ring | same_but_budget].
    + rewrite list_lookup_insert_ne in Hpayee by exact Hne.
      rewrite Hi in Hpayee. injection Hpayee as ->.
      apply Nat.eqb_neq in Hne. rewrite Nat.eqb_sym, Hne.
      simpl. split; [ring | same_but_budget].
  - rewrite list_lookup_insert_ne by congruence.
    apply Nat.eqb_neq in Hnto as Hnto'. rewrite Hnto'.
    destruct (decide (i = from o)) as [-> | Hnfrom].
    + rewrite list_lookup_insert_eq by exact Hfrom.
      eexists; split; [reflexivity |].
      rewrite Hi in Hpayer. injection Hpayer as ->.
      rewrite Nat.eqb_refl. simpl. split; [ring | same_but_budget].
    + rewrite list_lookup_insert_ne by congruence.
      exists p. split; [exact Hi |].
      apply Nat.eqb_neq in Hnfrom. rewrite Hnfrom.
      split; [ring | same_but_budget].
Qed.

(** The queue is settled front to back, each offer against the budgets the
    earlier ones left. *)
Lemma settleTrades_settled offers : ∀ pl pl',
  settleTrades offers pl = Ok pl' → settled offers pl pl'.
Proof.
  induction offers as [| o os IH]; simpl; intros pl pl' Hrun.
  - injection Hrun as <-. constructor.
  - destruct (settleOffer o pl) as [pl1 |] eqn:Hstep; [| discriminate].
    destruct (pl !! from o) as [payer |] eqn:Hpayer.
    + destruct (Qle_bool (amount o) (budget payer)) eqn:Hcmp.
      * apply Qle_bool_iff in Hcmp.
        eapply settled_paid; eauto using settleOffer_paid.
      * assert (¬ amount o <= budget payer) as Hlt.
        { rewrite <- Qle_bool_iff. congruence. }
        rewrite (settleOffer_dropped o pl payer Hpayer Hlt) in Hstep.
        injection Hstep as <-.
        eapply settled_dropped; eauto.
    + unfold settleOffer in Hstep. rewrite Hpayer in Hstep. discriminate.
Qed.

Lemma settleTrades_app os1 os2 pl :
  settleTrades (os1 ++ os2) pl
  = match settleTrades os1 pl with
    | Ok pl1 => settleTrades os2 pl1
    | Throw e => Throw e
    end.
Proof.
  revert pl. induction os1 as [| o os IH]; simpl; intros pl; [reflexivity |].
  destruct (settleOffer o pl); [apply IH | reflexivity].
Qed.

(** Settlement only ever writes budgets. *)
Lemma settleOffer_setBudget o pl pl' :
  settleOffer o pl = Ok pl' →
  Forall2 (fun p p' => setBudget (budget p) p' = p) pl pl'.
Proof.
  intros Hrun.
  assert (Forall2 (fun p p' : Player => setBudget (budget p) p' = p) pl pl) as Hrefl.
  { apply Forall2_same_length_lookup. split; [reflexivity |].
    intros i p p' H1 H2. rewrite H1 in H2. injection H2 as <-. apply setBudget_same. }
  unfold settleOffer in Hrun.
  destruct (pl !! from o) as [payer |] eqn:Hpayer; [| discriminate].
  destruct (Qgeb _ _) eqn:Hcmp; [| now injection Hrun as <-].
  apply Qgeb_true in Hcmp.
  assert (settleOffer o pl = Ok pl') as Hrun'.
  { unfold settleOffer. rewrite Hpayer. apply Qgeb_true in Hcmp. now rewrite Hcmp. }
  destruct (settleOffer_paid o pl payer pl' Hpayer Hcmp Hrun') as [Hlen Hall].
  apply Forall2_same_length_lookup. split; [now rewrite Hlen |].
  intros i p p' H1 H2. destruct (Hall i p H1) as (p'' & H3 & _ & H4).
  rewrite H2 in H3. now injection H3 as <-.
Qed.

(** ** The effect monad *)

Lemma bind_Ok {A B} (m : M A) (f : A -> M B) k b k' :
  bind m f k = Ok (b, k') ↔ ∃ a k1, m k = Ok (a, k1) ∧ f a k1 = Ok (b, k').
Proof.
  unfold bind. destruct (m k) as [[a k1] | e].
  - split; [eauto | now intros (? & ? & [= <- <-] & ?)].
  - split; [discriminate | now intros (? & ? & ? & ?)].
Qed.

Lemma lift_Ok {A} (r : Result A) k a k' :
  lift r k = Ok (a, k') ↔ r = Ok a ∧ k' = k.
Proof.
  unfold lift. destruct r; split; try congruence; try now intros [? ?].
  - intros [= -> ->]. auto.
  - intros [[= ->] ->]. reflexivity.
Qed.

Lemma lift_fromOption_Ok {A} e (o : option A) k a k' :
  lift (fromOption e o) k = Ok (a, k') ↔ o = Some a ∧ k' = k.
Proof.
  rewrite lift_Ok. destruct o; simpl; split; intros [H ->]; split; congruence.
Qed.

Lemma ret_Ok {A} (a : A) k b k' : ret a k = Ok (b, k') ↔ b = a ∧ k' = k.
Proof. unfold ret. split; [intros [= <- <-] | intros [-> ->]]; auto. Qed.

Lemma forEachIndex_app {S} (body : nat -> S -> M S) l1 l2 s k :
  forEachIndex body (l1 ++ l2) s k
  = bind (forEachIndex body l1 s) (forEachIndex body l2) k.
Proof.
  revert s k. induction l1 as [| i l1 IH]; simpl; intros s k; [reflexivity |].
  unfold bind. destruct (body i s k) as [[s1 k1] | e]; [| reflexivity].
  now rewrite IH.
Qed.

(** Running a loop over [0 .. n] is running it over [0 .. n-1] and then the
    body once more. *)
Lemma forEachIndex_seq_S {S} (body : nat -> S -> M S) n s k s' k' :
  forEachIndex body (seq 0 (Datatypes.S n)) s k = Ok (s', k')
  ↔ ∃ s1 k1, forEachIndex body (seq 0 n) s k = Ok (s1, k1)
             ∧ body n s1 k1 = Ok (s', k').
Proof.
  rewrite seq_S, forEachIndex_app, bind_Ok. simpl.
  split; intros (s1 & k1 & H1 & H2); exists s1, k1; split; auto.
  - apply bind_Ok in H2 as (s2 & k2 & H2 & H3).
    apply ret_Ok in H3 as [-> ->]. exact H2.
  - apply bind_Ok. exists s', k'. split; [exact H2 | now apply ret_Ok].
Qed.

(** ** One slot of one product *)

Lemma playerStep_inv rnd pi sf lf ef index s k s' k' :
  playerStep rnd pi sf lf ef index s k = Ok (s', k') →
  ∃ p player sup inv ord,
    products s !! pi = Some p ∧ players s !! index = Some player
    ∧ findSupplier (supplier p) = Some sup
    ∧ inventory p !! index = Some inv ∧ orders p !! index = Some ord
    ∧ k' = Datatypes.S k
    ∧ let demand := realizedDemand sf lf ef index in
      s' = setProducts
             (<[pi := setOrders (<[index := 0]> (orders p))
                        (setInventory
                           (<[index := specNewInventory inv ord sup demand]>
                              (inventory p))
                           (pushDemand demand p))]> (products s))
             (setPlayers
                (<[index := specLedger player sup inv ord demand
                              (rnd k * 0.1 - 0.05)]> (players s)) s).
Proof.
  unfold playerStep. intros H.
  apply bind_Ok in H as (p & k1 & Hp & H). apply lift_fromOption_Ok in Hp as [Hp ->].
  apply bind_Ok in H as (player & k1 & Hpl & H).
  apply lift_fromOption_Ok in Hpl as [Hpl ->].
  apply bind_Ok in H as (sup & k1 & Hsup & H).
  apply lift_fromOption_Ok in Hsup as [Hsup ->].
  apply bind_Ok in H as (inv & k1 & Hinv & H).
  apply lift_fromOption_Ok in Hinv as [Hinv ->].
  apply bind_Ok in H as (ord & k1 & Hord & H).
  apply lift_fromOption_Ok in Hord as [Hord ->].
  apply bind_Ok in H as (r & k1 & Hr & H).
  injection Hr as <- <-. apply ret_Ok in H as [-> ->].
  exists p, player, sup, inv, ord. repeat split; auto.
Qed.

(** ** The player loop of one product *)

Lemma setProducts_setPlayers_same s :
  setProducts (products s) (setPlayers (players s) s) = s.
Proof. now destruct s. Qed.

Lemma setProducts_over L P pl t s1 :
  s1 = setProducts P (setPlayers pl t) →
  setProducts L s1 = setProducts L (setPlayers pl t).
Proof. now intros ->. Qed.

Lemma playerLoop_inv rnd pi sf lf ef n : ∀ s k s' k' p,
  products s !! pi = Some p →
  forEachIndex (playerStep rnd pi sf lf ef) (seq 0 n) s k = Ok (s', k') →
  ∃ p', SlotsProcessed rnd sf lf ef n k p p' (players s) (players s')
        ∧ s' = setProducts (<[pi := p']> (products s)) (setPlayers (players s') s)
        ∧ k' = (k + n)%nat.
Proof.
  induction n as [| n IH]; intros s k s' k' p Hp Hrun.
  - simpl in Hrun. apply ret_Ok in Hrun as [-> ->]. exists p. split; [| split].
    + constructor; auto.
      * simpl. now rewrite app_nil_r.
      * intros j Hj. lia.
    + rewrite (list_insert_id _ _ _ Hp). symmetry. apply setProducts_setPlayers_same.
    + lia.
  - apply forEachIndex_seq_S in Hrun as (s1 & k1 & Hloop & Hstep).
    destruct (IH s k s1 k1 p Hp Hloop) as (p1 & SP & Hs1 & ->).
    apply playerStep_inv in Hstep
      as (p1' & player & sup & inv & ord & Hp1 & Hpl & Hsup & Hinv & Hord & -> & Hs').
    assert (pi < length (products s))%nat as Hpi by (eapply lookup_lt_Some; eauto).
    assert (products s1 = <[pi := p1]> (products s)) as Hps1 by now rewrite Hs1.
    rewrite Hps1, list_lookup_insert_eq in Hp1 by exact Hpi.
    injection Hp1 as <-.
    destruct SP as [Hid Hname Hlc Hsupp Hhist Hil Hol Hpll Hrest Hdone].
    destruct (Hrest n (le_n n)) as (Hinv_n & Hord_n & Hpl_n).
    assert (n < length (inventory p1))%nat as Hn_inv by (eapply lookup_lt_Some; eauto).
    assert (n < length (orders p1))%nat as Hn_ord by (eapply lookup_lt_Some; eauto).
    assert (n < length (players s1))%nat as Hn_pl by (eapply lookup_lt_Some; eauto).
    cbv zeta in Hs'.
    exists (setOrders (<[n := 0]> (orders p1))
              (setInventory
                 (<[n := specNewInventory inv ord sup (realizedDemand sf lf ef n)]>
                    (inventory p1))
                 (pushDemand (realizedDemand sf lf ef n) p1))).
    split; [| split].
    + rewrite Hs'. cbn [players setPlayers setProducts]. constructor.
      * exact Hid.
      * exact Hname.
      * exact Hlc.
      * exact Hsupp.
      * cbn [demandHistory setOrders setInventory pushDemand].
        rewrite Hhist, seq_S, fmap_app, app_assoc. reflexivity.
      * simpl. now rewrite length_insert.
      * simpl. now rewrite length_insert.
      * now rewrite length_insert.
      * simpl. intros j Hj. rewrite !list_lookup_insert_ne by lia. apply Hrest. lia.
      * simpl. intros j Hj. destruct (decide (j = n)) as [-> | Hne].
        -- exists sup, inv, ord, player.
           rewrite <- Hsupp, <- Hinv_n, <- Hord_n, <- Hpl_n.
           rewrite !list_lookup_insert_eq by assumption.
           repeat split; auto.
        -- destruct (Hdone j) as (sup' & inv' & ord' & player' & H); [lia |].
           exists sup', inv', ord', player'.
           rewrite !list_lookup_insert_ne by lia. exact H.
    + rewrite Hs'. simpl. rewrite Hps1, list_insert_insert_eq. rewrite Hs1. reflexivity.
    + lia.
Qed.

(** ** One product *)

Lemma lifecycleStep_inv rnd pi s k s' k' :
  lifecycleStep rnd pi s k = Ok (s', k') →
  ∃ p p', products s !! pi = Some p
          ∧ (p' = p ∨ p' = setLifecycle (nextLifecycle (lifecycle p)) p)
          ∧ s' = setProducts (<[pi := p']> (products s)) s
          ∧ k' = Datatypes.S k.
Proof.
  unfold lifecycleStep. intros H.
  apply bind_Ok in H as (p & k1 & Hp & H). apply lift_fromOption_Ok in Hp as [Hp ->].
  apply bind_Ok in H as (r & k1 & Hr & H). injection Hr as <- <-.
  destruct (Qltb _ _); apply ret_Ok in H as [-> ->].
  - exists p, (setLifecycle (nextLifecycle (lifecycle p)) p). auto.
  - exists p, p. repeat split; auto.
    rewrite (list_insert_id _ _ _ Hp). now destruct s.
Qed.

Lemma aiStep_inv gameMode pi s s' :
  aiStep gameMode pi s = Ok s' →
  ∃ p aiOrder inventory0 lastDemand,
    products s !! pi = Some p
    ∧ aiStrategy s (p_id p) (difficultyOf gameMode) = Ok aiOrder
    ∧ inventory p !! 0%nat = Some inventory0
    ∧ last (demandHistory p) = Some lastDemand
    ∧ s' = setAiScore (aiScore s + aiOutcome inventory0 lastDemand aiOrder) s.
Proof.
  unfold aiStep. intros H.
  destruct (products s !! pi) as [p |]; [| discriminate].
  destruct (aiStrategy _ _ _) as [aiOrder |] eqn:Hstrat; [| discriminate].
  destruct (inventory p !! 0%nat) as [inventory0 |] eqn:Hinv; [| discriminate].
  destruct (last (demandHistory p)) as [lastDemand |] eqn:Hlast; [| discriminate].
  injection H as <-. exists p, aiOrder, inventory0, lastDemand.
  repeat split; auto.
Qed.

(** The policy reads the products, the players and the season, not the
    AI's running score. *)
Lemma aiStrategy_setAiScore v s productId difficulty :
  aiStrategy (setAiScore v s) productId difficulty = aiStrategy s productId difficulty.
Proof. reflexivity. Qed.

Lemma productStep_inv rnd gameMode pi s k s' k' :
  productStep rnd gameMode pi s k = Ok (s', k') →
  ∃ p p1 p' aiOrder inventory0 lastDemand,
    products s !! pi = Some p
    ∧ SlotsProcessed rnd (seasonalFactors s (currentSeason s))
        (lifecycleFactorOf (lifecycle p))
        (environmentalFactorOf (environmentalEvent s))
        (length (players s)) k p p1 (players s) (players s')
    ∧ (p' = p1 ∨ p' = setLifecycle (nextLifecycle (lifecycle p1)) p1)
    ∧ aiStrategy s' (p_id p') (difficultyOf gameMode) = Ok aiOrder
    ∧ inventory p' !! 0%nat = Some inventory0
    ∧ last (demandHistory p') = Some lastDemand
    ∧ s' = setAiScore (aiScore s + aiOutcome inventory0 lastDemand aiOrder)
             (setProducts (<[pi := p']> (products s)) (setPlayers (players s') s))
    ∧ k' = (k + length (players s) + 1)%nat.
Proof.
  unfold productStep. intros H.
  apply bind_Ok in H as (p & k0 & Hp & H). apply lift_fromOption_Ok in Hp as [Hp ->].
  apply bind_Ok in H as (s1 & k1 & Hloop & H).
  apply bind_Ok in H as (s2 & k2 & Hlife & H).
  apply lift_Ok in H as [Hai ->].
  destruct (playerLoop_inv _ _ _ _ _ _ _ _ _ _ _ Hp Hloop) as (p1 & SP & Hs1 & ->).
  assert (pi < length (products s))%nat as Hpi by (eapply lookup_lt_Some; eauto).
  apply lifecycleStep_inv in Hlife as (p1' & p' & Hp1 & Hp' & Hs2 & ->).
  assert (products s1 = <[pi := p1]> (products s)) as Hps1 by now rewrite Hs1.
  rewrite Hps1, list_lookup_insert_eq in Hp1 by exact Hpi. injection Hp1 as <-.
  apply aiStep_inv in Hai as (p'' & aiOrder & inventory0 & lastDemand
                              & Hp'' & Hstrat & Hinv0 & Hlast & Hs').
  assert (products s2 = <[pi := p']> (products s)) as Hps2.
  { rewrite Hs2. simpl. now rewrite Hps1, list_insert_insert_eq. }
  rewrite Hps2, list_lookup_insert_eq in Hp'' by exact Hpi. injection Hp'' as <-.
  assert (players s' = players s1) as Hpls by (rewrite Hs', Hs2; reflexivity).
  exists p, p1, p', aiOrder, inventory0, lastDemand.
  rewrite Hpls.
  refine (conj Hp (conj SP (conj Hp' (conj _ (conj Hinv0 (conj Hlast (conj _ _))))))).
  - rewrite Hs'. exact Hstrat.
  - assert (aiScore s2 = aiScore s) as Hscore by (rewrite Hs2, Hs1; reflexivity).
    rewrite Hs', Hscore, Hs2, Hps1, list_insert_insert_eq.
    now rewrite (setProducts_over _ _ _ _ _ Hs1).
  - lia.
Qed.

(** ** The product loop *)

Lemma specLedgerRun_snoc sf ef j jitter ps p : ∀ i pl,
  specLedgerRun sf ef j jitter i (ps ++ [p]) pl
  = specLedgerRun sf ef j jitter i ps pl
    ≫= specSlotStep sf ef j (jitter (i + length ps)%nat) p.
Proof.
  induction ps as [| a ps IH]; intros i pl; simpl.
  - rewrite Nat.add_0_r. now destruct (specSlotStep _ _ _ _ _ _).
  - destruct (specSlotStep sf ef j (jitter i) a pl) as [pl' |]; simpl; [| reflexivity].
    rewrite IH. now rewrite Nat.add_succ_r.
Qed.

Lemma SlotsProcessed_sold rnd sf ef np k p p1 p' pl pl' :
  SlotsProcessed rnd sf (lifecycleFactorOf (lifecycle p)) ef np k p p1 pl pl' →
  p' = p1 ∨ p' = setLifecycle (nextLifecycle (lifecycle p1)) p1 →
  SlotsSold sf ef np p p'.
Proof.
  intros [Hid Hname Hlc Hsupp Hhist Hil Hol Hpll Hrest Hdone] Hp'.
  assert (∀ j, inventory p' !! j = inventory p1 !! j
               ∧ orders p' !! j = orders p1 !! j) as Hsame
    by (destruct Hp' as [-> | ->]; auto).
  constructor.
  - destruct Hp' as [-> | ->]; exact Hid.
  - destruct Hp' as [-> | ->]; exact Hname.
  - destruct Hp' as [-> | ->]; exact Hsupp.
  - destruct Hp' as [-> | ->]; [left; exact Hlc | right; simpl; now rewrite Hlc].
  - destruct Hp' as [-> | ->]; exact Hhist.
  - intros j Hj. destruct (Hsame j) as [-> ->].
    destruct (Hrest j Hj) as (? & ? & _). auto.
  - intros j Hj. destruct (Hsame j) as [-> ->].
    destruct (Hdone j Hj) as (sup & inv & ord & player & ? & ? & ? & ? & ? & ? & ?).
    exists sup, inv, ord. auto.
Qed.

Lemma productLoop_inv rnd gameMode n : ∀ s k s' k',
  (n ≤ length (products s))%nat →
  forEachIndex (productStep rnd gameMode) (seq 0 n) s k = Ok (s', k') →
  ProductsProcessed rnd n k s s' ∧ k' = (k + n * S (length (players s)))%nat.
Proof.
  induction n as [| n IH]; intros s k s' k' Hn Hrun.
  - simpl in Hrun. apply ret_Ok in Hrun as [-> ->]. split; [| lia].
    constructor; auto. intros pi Hpi. lia.
  - apply forEachIndex_seq_S in Hrun as (s1 & k1 & Hloop & Hstep).
    destruct (IH s k s1 k1 ltac:(lia) Hloop) as [PP ->].
    destruct PP as [Hturn Hseason Hfac Hev Hoff Hpsl Hpll Hrest Hdone Hpls].
    apply productStep_inv in Hstep
      as (p & p1 & p' & aiOrder & inventory0 & lastDemand
          & Hp & SP & Hp' & _ & _ & _ & Hs' & ->).
    rewrite Hfac, Hseason, Hev, Hpll in SP.
    rewrite Hrest in Hp by lia.
    pose proof (SlotsProcessed_sold _ _ _ _ _ _ _ _ _ _ SP Hp') as SS.
    split; [| rewrite Hpll; lia].
    assert (n < length (products s1))%nat as Hn1 by lia.
    constructor; try (rewrite Hs'; simpl; congruence).
    + rewrite Hs'. simpl. now rewrite length_insert.
    + rewrite <- Hpll. apply (sp_players_length _ _ _ _ _ _ _ _ _ _ SP).
    + intros pi Hpi. rewrite Hs'. simpl.
      rewrite list_lookup_insert_ne by lia. apply Hrest. lia.
    + intros pi Hpi. rewrite Hs'. simpl.
      destruct (decide (pi = n)) as [-> | Hne].
      * exists p, p'. rewrite list_lookup_insert_eq by exact Hn1. auto.
      * rewrite list_lookup_insert_ne by lia. apply Hdone. lia.
    + intros j player Hj.
      assert (j < length (players s))%nat as Hjlt by (eapply lookup_lt_Some; eauto).
      destruct (sp_done _ _ _ _ _ _ _ _ _ _ SP j Hjlt)
        as (sup & inv & ord & player1 & Hsup & Hinv & Hord & Hpl1 & _ & _ & Hledger).
      rewrite (take_S_r _ _ _ Hp), specLedgerRun_snoc.
      rewrite <- (Hpls j player Hj), Hpl1. simpl.
      unfold specSlotStep. rewrite Hsup, Hinv, Hord. simpl.
      rewrite Hledger. unfold jitterAt.
      rewrite length_take_le by lia. reflexivity.
Qed.

(** ** The whole turn *)

Lemma startTurn_inv rnd s k s0 k0 :
  startTurn rnd s k = Ok (s0, k0) →
  turn s0 = (turn s + 1)%nat ∧ currentSeason s0 = seasonOfTurn (turn s + 1)
  ∧ seasonalFactors s0 = seasonalFactors s ∧ products s0 = products s
  ∧ players s0 = players s ∧ aiScore s0 = aiScore s
  ∧ tradeOffers s0 = tradeOffers s.
Proof.
  unfold startTurn. intros H.
  apply bind_Ok in H as (ev & k1 & _ & H). apply ret_Ok in H as [-> ->].
  repeat split.
Qed.

(** A turn that returns has run its four phases: the roll of the event, the
    product loop, the investments and the settlement of the queue. *)
Lemma nextTurn_inv rnd gameMode s k s' k' :
  nextTurn rnd gameMode s k = Ok (s', k') →
  ∃ s0 k0 s1,
    startTurn rnd s k = Ok (s0, k0)
    ∧ processProducts rnd gameMode s0 k0 = Ok (s1, k')
    ∧ ProductsProcessed rnd (length (products s)) k0 s0 s1
    ∧ settleTrades (tradeOffers s) (applyInvestment <$> players s1) = Ok (players s')
    ∧ products s' = products s1 ∧ tradeOffers s' = []
    ∧ aiScore s' = aiScore s1 ∧ turn s' = turn s0
    ∧ currentSeason s' = currentSeason s0
    ∧ seasonalFactors s' = seasonalFactors s0
    ∧ environmentalEvent s' = environmentalEvent s0.
Proof.
  unfold nextTurn. intros H.
  apply bind_Ok in H as (s0 & k0 & Hstart & H).
  apply bind_Ok in H as (s1 & k1 & Hloop & H).
  apply bind_Ok in H as (pl & k2 & Hsettle & H).
  apply lift_Ok in Hsettle as [Hsettle ->]. apply ret_Ok in H as [-> ->].
  pose proof (startTurn_inv _ _ _ _ _ Hstart) as (_ & _ & _ & Hps & _ & _ & Hoff).
  pose proof Hloop as Hloop'. unfold processProducts in Hloop'.
  apply productLoop_inv in Hloop' as [PP _]; [| lia].
  exists s0, k0, s1. simpl in Hsettle |- *.
  rewrite (pp_offers _ _ _ _ _ PP), Hoff in Hsettle. rewrite <- Hps.
  destruct PP. repeat split; auto.
Qed.

(** ** Step formulas (C1) *)

(** C1: one call of [nextTurn] that returns updates every (product, slot)
    pair by the step formulas of the specification.  The inventory entry
    becomes [max 0 (inventory + order * reliability - demand)] of the
    pre-turn inventory and pending order, and the pending order becomes 0.
    The ledger of every player, when the product loop is over, is the
    pre-turn ledger taken through the products in order, each adding
    [revenue = min demand inventory * 20 * quality],
    [holdingCost = newInventory * 0.5],
    [stockoutPenalty = max 0 (demand - inventory) * 2] and
    [orderCost = order * 10 * cost] to its accumulators and turning the
    budget into [min (budget - orderCost + revenue) 2000]; the players the
    turn returns are these ledgers after the investments and the
    settlement of the queue. *)
Theorem nextTurn_step_formulas rnd gameMode s k s' k' :
  nextTurn rnd gameMode s k = Ok (s', k') →
  let sf := seasonalFactors s (currentSeason s') in
  let ef := environmentalFactorOf (environmentalEvent s') in
  (∀ pi p j, products s !! pi = Some p → (j < length (players s))%nat →
     ∃ sup inv ord p',
       findSupplier (supplier p) = Some sup ∧ inventory p !! j = Some inv
       ∧ orders p !! j = Some ord ∧ products s' !! pi = Some p'
       ∧ inventory p' !! j
         = Some (specNewInventory inv ord sup
                   (realizedDemand sf (lifecycleFactorOf (lifecycle p)) ef j))
       ∧ orders p' !! j = Some 0)
  ∧ ∃ k0 ledgers,
      length ledgers = length (players s)
      ∧ (∀ j player, players s !! j = Some player →
           ledgers !! j
           = specLedgerRun sf ef j (jitterAt rnd k0 (length (players s)) j) 0
               (products s) player)
      ∧ settleTrades (tradeOffers s) (applyInvestment <$> ledgers)
        = Ok (players s').
Proof.
  intros Hrun sf ef.
  apply nextTurn_inv in Hrun
    as (s0 & k0 & s1 & Hstart & _ & PP & Hsettle & Hps' & _ & _ & _ & Hseason & _ & Hev).
  apply startTurn_inv in Hstart as (_ & _ & Hfac & Hps & Hpl & _ & _).
  destruct PP as [_ _ _ _ _ _ Hpll _ Hdone Hpls].
  rewrite Hfac, <- Hseason, <- Hev, Hpl in Hdone, Hpls.
  fold sf ef in Hdone, Hpls. rewrite Hps in Hdone, Hpls. split.
  - intros pi p j Hp Hj.
    destruct (Hdone pi) as (p0 & p' & Hp0 & Hp' & SS).
    { eapply lookup_lt_Some; eauto. }
    rewrite Hp in Hp0. injection Hp0 as <-.
    destruct (ss_done _ _ _ _ _ SS j Hj) as (sup & inv & ord & H1 & H2 & H3 & H4 & H5).
    exists sup, inv, ord, p'. rewrite Hps'. auto 10.
  - exists k0, (players s1). rewrite take_ge in Hpls by lia.
    rewrite Hpll, Hpl. auto.
Qed.

(** ** Settlement of the trade queue (C3, C10) *)

Lemma settleTrades_setBudget offers : ∀ pl pl',
  settleTrades offers pl = Ok pl' →
  Forall2 (fun p p' => setBudget (budget p) p' = p) pl pl'.
Proof.
  induction offers as [| o os IH]; simpl; intros pl pl' Hrun.
  - injection Hrun as <-. apply Forall2_same_length_lookup. split; [reflexivity |].
    intros i p p' H1 H2. rewrite H1 in H2. injection H2 as <-. apply setBudget_same.
  - destruct (settleOffer o pl) as [pl1 |] eqn:Hstep; [| discriminate].
    apply settleOffer_setBudget in Hstep. apply IH in Hrun.
    apply Forall2_same_length_lookup.
    split; [rewrite (Forall2_length _ _ _ Hstep); apply (Forall2_length _ _ _ Hrun) |].
    intros i p p' H1 H2.
    destruct (Forall2_lookup_l _ _ _ _ _ Hstep H1) as (p1 & H3 & E1).
    pose proof (Forall2_lookup_lr _ _ _ _ _ _ Hrun H3 H2) as E2.
    rewrite <- E1, <- E2. reflexivity.
Qed.

(** C3: in a turn that returns, the queue is settled in submission order
    against the players the investments left: an offer whose amount the
    payer's budget covers moves exactly that amount from payer to
    recipient, any other offer is dropped without an error and without
    changing a budget; the queue of the returned state is empty. *)
Theorem trades_settled_in_queue_order rnd gameMode s k s' k' :
  nextTurn rnd gameMode s k = Ok (s', k') →
  tradeOffers s' = []
  ∧ ∃ s0 k0 s1,
      startTurn rnd s k = Ok (s0, k0)
      ∧ processProducts rnd gameMode s0 k0 = Ok (s1, k')
      ∧ settled (tradeOffers s) (applyInvestment <$> players s1) (players s').
Proof.
  intros Hrun.
  apply nextTurn_inv in Hrun as (s0 & k0 & s1 & Hstart & Hloop & _ & Hsettle & _ & Hq & _).
  split; [exact Hq |]. exists s0, k0, s1.
  auto using settleTrades_settled.
Qed.


(** ** Inventory and demand history (C7, C8) *)

Lemma nextTurn_players_length rnd gameMode s k s' k' :
  nextTurn rnd gameMode s k = Ok (s', k') →
  length (players s') = length (players s).
Proof.
  intros Hrun.
  apply nextTurn_inv in Hrun as (s0 & k0 & s1 & Hstart & _ & PP & Hsettle & _).
  apply startTurn_inv in Hstart as (_ & _ & _ & _ & Hpl & _).
  apply settleTrades_setBudget, Forall2_length in Hsettle.
  rewrite <- Hsettle, length_fmap, (pp_players_length _ _ _ _ _ PP). now rewrite Hpl.
Qed.

(** What a turn does to each product, seen from the state it started on. *)
Lemma nextTurn_products rnd gameMode s k s' k' :
  nextTurn rnd gameMode s k = Ok (s', k') →
  length (products s') = length (products s)
  ∧ ∀ pi p', products s' !! pi = Some p' →
      ∃ p, products s !! pi = Some p
           ∧ SlotsSold (seasonalFactors s (currentSeason s'))
               (environmentalFactorOf (environmentalEvent s'))
               (length (players s)) p p'.
Proof.
  intros Hrun.
  apply nextTurn_inv in Hrun
    as (s0 & k0 & s1 & Hstart & _ & PP & _ & Hps' & _ & _ & _ & Hseason & _ & Hev).
  apply startTurn_inv in Hstart as (_ & _ & Hfac & Hps & Hpl & _ & _).
  destruct PP as [_ _ _ _ _ Hpsl _ _ Hdone _].
  rewrite Hfac, <- Hseason, <- Hev, Hpl, Hps in Hdone.
  rewrite Hps', Hpsl, Hps. split; [reflexivity |].
  intros pi p' Hp'.
  destruct (Hdone pi) as (p & p'' & Hp & Hp'' & SS).
  { apply lookup_lt_Some in Hp'. rewrite Hpsl, Hps in Hp'. exact Hp'. }
  rewrite Hp' in Hp''. injection Hp'' as <-. eauto.
Qed.

(** C7, as stated, does not hold: an order of one unit with supplier 1, whose
    reliability is 0.95, leaves 50 + 0.95 - 19 = 31.95 units in stock. *)
Lemma inventory_not_integer :
  ∃ s' k' p x,
    nextTurn calm normal (handleOrderChange 0 1 1 initialState) 0%nat = Ok (s', k')
    ∧ products s' !! 0%nat = Some p ∧ inventory p !! 0%nat = Some x
    ∧ x == 31.95 ∧ ¬ ∃ z : Z, x == inject_Z z.
Proof.
  eexists _, _, _, _. split; [vm_compute; reflexivity |].
  split; [vm_compute; reflexivity |]. split; [vm_compute; reflexivity |].
  split; [vm_compute; reflexivity |].
  intros [z Hz]. unfold Qeq in Hz. simpl in Hz. lia.
Qed.

(** C7, amended: after every turn that returns, the inventory entry of
    every product for every player slot is a non-negative number. *)
Theorem inventory_nonnegative rnd gameMode s k s' k' :
  nextTurn rnd gameMode s k = Ok (s', k') →
  ∀ pi p' j x,
    products s' !! pi = Some p' → (j < length (players s'))%nat →
    inventory p' !! j = Some x → 0 <= x.
Proof.
  intros Hrun pi p' j x Hp' Hj Hx.
  rewrite (nextTurn_players_length _ _ _ _ _ _ Hrun) in Hj.
  destruct (nextTurn_products _ _ _ _ _ _ Hrun) as [_ Hall].
  destruct (Hall pi p' Hp') as (p & _ & SS).
  destruct (ss_done _ _ _ _ _ SS j Hj) as (sup & inv & ord & _ & _ & _ & Hnew & _).
  rewrite Hx in Hnew. injection Hnew as ->. apply Q.le_max_l.
Qed.

(** C8: a turn that returns appends to the history of every product one
    entry per seated player, the demand that slot realised, after the
    entries that were there. *)
Theorem demandHistory_one_entry_per_player rnd gameMode s k s' k' :
  nextTurn rnd gameMode s k = Ok (s', k') →
  ∀ pi p', products s' !! pi = Some p' →
    ∃ p appended,
      products s !! pi = Some p
      ∧ demandHistory p' = demandHistory p ++ appended
      ∧ length appended = length (players s).
Proof.
  intros Hrun pi p' Hp'.
  destruct (nextTurn_products _ _ _ _ _ _ Hrun) as [_ Hall].
  destruct (Hall pi p' Hp') as (p & Hp & SS).
  exists p. eexists. split; [exact Hp |]. split; [apply (ss_history _ _ _ _ _ SS) |].
  now rewrite length_fmap, length_seq.
Qed.

(** ** The budget ceiling (C2) *)

(** C2: with two players seated on the starting state and one offer queued
    from player 0 to player 1, the turn leaves player 1 with a budget of
    2100: the sales of the turn take it to the ceiling of 2000 and the
    settlement adds the 100 of the offer. *)
Theorem budget_above_ceiling_after_trade :
  ∃ s' k' player1,
    nextTurn calm normal (handleTradeOffer 0 1 (resizePlayers 2 initialState)) 0%nat
    = Ok (s', k')
    ∧ players s' !! 1%nat = Some player1
    ∧ budget player1 == 2100 ∧ ¬ budget player1 <= 2000.
Proof.
  eexists _, _, _. split; [vm_compute; reflexivity |].
  split; [vm_compute; reflexivity |].
  split; [vm_compute; reflexivity |].
  vm_compute. intros H. now apply H.
Qed.

(** What does hold of the ceiling: the ledger step of the last product
    leaves every budget at 2000 or below. *)
Lemma specLedgerRun_ceiling sf ef j jitter ps : ∀ i pl pl',
  ps ≠ [] → specLedgerRun sf ef j jitter i ps pl = Some pl' →
  budget pl' <= 2000
  ∧ rdInvestment pl' = rdInvestment pl
  ∧ facilityInvestment pl' = facilityInvestment pl.
Proof.
  induction ps as [| p ps IH]; intros i pl pl' Hne Hrun; [congruence |].
  simpl in Hrun.
  destruct (specSlotStep sf ef j (jitter i) p pl) as [pl1 |] eqn:Hstep;
    [| discriminate].
  simpl in Hrun. unfold specSlotStep in Hstep.
  destruct (findSupplier (supplier p)) as [sup |]; [| discriminate].
  destruct (inventory p !! j) as [inv |]; [| discriminate].
  destruct (orders p !! j) as [ord |]; [| discriminate].
  simpl in Hstep. injection Hstep as <-.
  destruct ps as [| q ps].
  - simpl in Hrun. injection Hrun as <-. simpl.
    split; [apply Q.le_min_r | auto].
  - destruct (IH _ _ _ ltac:(discriminate) Hrun) as (H1 & H2 & H3). auto.
Qed.

(** X25: With a product in the catalogue, an empty queue and pending investments
    that are not negative, the budget a turn returns is at most 2000. *)
Lemma budget_ceiling_without_transfers rnd gameMode s k s' k' :
  nextTurn rnd gameMode s k = Ok (s', k') →
  products s ≠ [] → tradeOffers s = [] →
  ∀ j pl pl',
    players s !! j = Some pl →
    0 <= rdInvestment pl + facilityInvestment pl →
    players s' !! j = Some pl' → budget pl' <= 2000.
Proof.
  intros Hrun Hne Hq j pl pl' Hpl Hinv Hpl'.
  apply nextTurn_inv in Hrun as (s0 & k0 & s1 & Hstart & _ & PP & Hsettle & _).
  apply startTurn_inv in Hstart as (_ & _ & _ & Hps & Hpls & _ & _).
  rewrite Hq in Hsettle. simpl in Hsettle. injection Hsettle as Hsettle.
  pose proof (pp_players _ _ _ _ _ PP j pl) as Hledger.
  rewrite Hpls, Hps, take_ge in Hledger by lia. specialize (Hledger Hpl).
  rewrite <- Hsettle, list_lookup_fmap, Hledger in Hpl'.
  destruct (specLedgerRun _ _ _ _ _ _ _) as [p1 |] eqn:Hrun; [| discriminate].
  simpl in Hpl'. injection Hpl' as <-.
  destruct (specLedgerRun_ceiling _ _ _ _ _ _ _ _ Hne Hrun) as (Hb & Hrd & Hfac).
  simpl. rewrite Hrd, Hfac. lra.
Qed.

(** ** The AI's shadow outcome (C6) *)

(** C6, as stated, does not hold.  On the first turn of a new game the
    product loop adds 374 to [aiScore] for product 1: 19 units sold at 20,
    less the holding cost of the 12 units left of the 31 the player's own
    step left in stock.  Steps (c) to (e) with the multipliers of supplier 1,
    on the pre-turn inventory of 50 and the demand of 19, give 326.5. *)
Lemma ai_outcome_counterexample :
  ∃ s0 k0 s1 k1 p sup aiOrder,
    startTurn calm initialState 0%nat = Ok (s0, k0)
    ∧ productStep calm normal 0 s0 k0 = Ok (s1, k1)
    ∧ products s0 !! 0%nat = Some p ∧ inventory p !! 0%nat = Some 50
    ∧ findSupplier (supplier p) = Some sup
    ∧ aiStrategy s1 (p_id p) (difficultyOf normal) = Ok aiOrder
    ∧ let demand :=
        realizedDemand (seasonalFactors s0 (currentSeason s0))
          (lifecycleFactorOf (lifecycle p))
          (environmentalFactorOf (environmentalEvent s0)) 0 in
      aiScore s1 - aiScore s0 == 374
      ∧ specAiOutcome sup 50 demand aiOrder == 326.5
      ∧ ¬ aiScore s1 - aiScore s0 == specAiOutcome sup 50 demand aiOrder.
Proof.
  eexists _, _, _, _, _, _, _.
  split; [vm_compute; reflexivity |]. split; [vm_compute; reflexivity |].
  split; [vm_compute; reflexivity |]. split; [vm_compute; reflexivity |].
  split; [vm_compute; reflexivity |]. split; [vm_compute; reflexivity |].
  split; [vm_compute; reflexivity |]. split; [vm_compute; reflexivity |].
  vm_compute. discriminate.
Qed.

Lemma aiStep_frame gameMode pi t t' :
  aiStep gameMode pi t = Ok t' →
  players t' = players t ∧ products t' = products t.
Proof.
  intros H. apply aiStep_inv in H as (p & o & i & d & _ & _ & _ & _ & ->).
  split; reflexivity.
Qed.

(** C6, amended: with one player seated, what an iteration of the product
    loop adds to [aiScore] is the net result of steps (c) to (e) with no
    supplier multiplier, [aiOutcome], on the slot-0 inventory as step (g) of
    this turn has just written it, the demand slot 0 realised, and the order
    [aiStrategy] returns; the AI block changes no player and no product. *)
Theorem ai_shadow_outcome rnd gameMode pi s k s' k' :
  length (players s) = 1%nat →
  productStep rnd gameMode pi s k = Ok (s', k') →
  (∃ p sup inv ord p' aiOrder,
     products s !! pi = Some p ∧ findSupplier (supplier p) = Some sup
     ∧ inventory p !! 0%nat = Some inv ∧ orders p !! 0%nat = Some ord
     ∧ products s' !! pi = Some p'
     ∧ aiStrategy s' (p_id p') (difficultyOf gameMode) = Ok aiOrder
     ∧ let demand :=
         realizedDemand (seasonalFactors s (currentSeason s))
           (lifecycleFactorOf (lifecycle p))
           (environmentalFactorOf (environmentalEvent s)) 0 in
       let stock := specNewInventory inv ord sup demand in
       inventory p' !! 0%nat = Some stock
       ∧ aiScore s' = aiScore s + aiOutcome stock demand aiOrder)
  ∧ ∀ t t', aiStep gameMode pi t = Ok t' →
      players t' = players t ∧ products t' = products t.
Proof.
  intros Hone Hrun. split; [| apply aiStep_frame].
  apply productStep_inv in Hrun
    as (p & p1 & p' & aiOrder & inventory0 & lastDemand
        & Hp & SP & Hp' & Hstrat & Hinv0 & Hlast & Hs' & _).
  rewrite Hone in SP.
  destruct (sp_done _ _ _ _ _ _ _ _ _ _ SP 0%nat ltac:(lia))
    as (sup & inv & ord & player & Hsup & Hinv & Hord & _ & Hnew & _ & _).
  pose proof (sp_history _ _ _ _ _ _ _ _ _ _ SP) as Hhist. simpl in Hhist.
  assert (inventory p' = inventory p1 ∧ demandHistory p' = demandHistory p1)
    as [Einv Ehist] by (destruct Hp' as [-> | ->]; auto).
  rewrite Einv, Hnew in Hinv0. injection Hinv0 as <-.
  rewrite Ehist, Hhist, last_snoc in Hlast. injection Hlast as <-.
  exists p, sup, inv, ord, p', aiOrder.
  assert (pi < length (products s))%nat as Hpi by (eapply lookup_lt_Some; eauto).
  repeat split; auto.
  - rewrite Hs'. simpl. now apply list_lookup_insert_eq.
  - now rewrite Einv.
  - rewrite Hs'. reflexivity.
Qed.

(** ** The accounting identities in exact arithmetic

    With every sum taken exactly, each step of the ledger keeps the two
    identities.  The doubles of the program round each addition, and the
    identities are lost with the first rounding, as the last section of
    this file shows. *)

Lemma specLedger_balanced a pl sup inv ord demand jitter :
  ledgerBalanced a pl → ledgerBalanced a (specLedger pl sup inv ord demand jitter).
Proof.
  unfold ledgerBalanced, specLedger. simpl. intros [Hscore Hexp].
  split; [rewrite Hscore | rewrite Hexp]; ring.
Qed.

Lemma specLedgerRun_balanced sf ef j jitter a ps : ∀ i pl pl',
  specLedgerRun sf ef j jitter i ps pl = Some pl' →
  ledgerBalanced a pl →
  ledgerBalanced a pl' ∧ rdInvestment pl' = rdInvestment pl
  ∧ facilityInvestment pl' = facilityInvestment pl.
Proof.
  induction ps as [| p ps IH]; simpl; intros i pl pl' Hrun Hbal.
  - injection Hrun as <-. auto.
  - destruct (specSlotStep sf ef j (jitter i) p pl) as [pl1 |] eqn:Hstep;
      [| discriminate].
    simpl in Hrun. unfold specSlotStep in Hstep.
    destruct (findSupplier (supplier p)) as [sup |]; [| discriminate].
    destruct (inventory p !! j) as [inv |]; [| discriminate].
    destruct (orders p !! j) as [ord |]; [| discriminate].
    simpl in Hstep. injection Hstep as <-.
    destruct (IH _ _ _ Hrun (specLedger_balanced _ _ sup inv ord _ _ Hbal))
      as (H1 & H2 & H3).
    auto.
Qed.

Lemma applyInvestment_balanced a p :
  ledgerBalanced a p →
  ledgerBalanced (a + (rdInvestment p + facilityInvestment p)) (applyInvestment p).
Proof.
  unfold ledgerBalanced, applyInvestment. simpl. intros [Hscore Hexp].
  split; [exact Hscore | rewrite Hexp; ring].
Qed.

Lemma ledgerBalanced_setBudget a p p' :
  setBudget (budget p) p' = p → ledgerBalanced a p → ledgerBalanced a p'.
Proof. intros <-. destruct p'. exact id. Qed.

Lemma ledgerBalanced_setRdInvestment a v p :
  ledgerBalanced a p → ledgerBalanced a (setRdInvestment v p).
Proof. exact id. Qed.

Lemma ledgerBalanced_setFacilityInvestment a v p :
  ledgerBalanced a p → ledgerBalanced a (setFacilityInvestment v p).
Proof. exact id. Qed.

Lemma ledgerBalanced_newPlayer : ledgerBalanced 0 newPlayer.
Proof. split; reflexivity. Qed.

Lemma runCommand_balanced c s applied :
  Forall2 ledgerBalanced applied (players s) →
  Forall2 ledgerBalanced (appliedAfter c applied) (players (runCommand c s)).
Proof.
  intros Hall. pose proof (Forall2_length _ _ _ Hall) as Hlen.
  destruct c as [? ? ? | playerId kind value | ? ? ? | ? ? | playerCount]; simpl;
    try exact Hall.
  - unfold mapAt. apply Forall2_same_length_lookup.
    split; [now rewrite length_imap |].
    intros i a p' Ha Hp'. rewrite list_lookup_imap in Hp'.
    destruct (players s !! i) as [p |] eqn:Hp; [| discriminate].
    simpl in Hp'. injection Hp' as <-.
    pose proof (Forall2_lookup_lr _ _ _ _ _ _ Hall Ha Hp) as Hbal.
    destruct (Nat.eqb i playerId); [| exact Hbal].
    now destruct kind.
  - unfold resizePlayers, appliedAfterResize. rewrite Hlen.
    destruct (Nat.ltb_spec (length (players s)) playerCount) as [Hlt | Hge]; simpl.
    + rewrite take_ge by lia. apply Forall2_app; [exact Hall |].
      apply Forall2_replicate. apply ledgerBalanced_newPlayer.
    + replace (playerCount - length (players s))%nat with 0%nat by lia.
      simpl. rewrite app_nil_r.
      destruct (Nat.ltb_spec playerCount (length (players s))) as [Hlt | Hge'];
        simpl.
      * now apply Forall2_take.
      * rewrite take_ge by lia. exact Hall.
Qed.

Lemma nextTurn_balanced rnd gameMode k s applied s' k' :
  Forall2 ledgerBalanced applied (players s) →
  nextTurn rnd gameMode s k = Ok (s', k') →
  Forall2 ledgerBalanced (appliedAfterTurn (players s) applied) (players s').
Proof.
  intros Hall Hrun. pose proof (Forall2_length _ _ _ Hall) as Hlen.
  pose proof (nextTurn_players_length _ _ _ _ _ _ Hrun) as Hlen'.
  apply nextTurn_inv in Hrun as (s0 & k0 & s1 & Hstart & _ & PP & Hsettle & _).
  apply startTurn_inv in Hstart as (_ & _ & _ & _ & Hpl & _).
  apply settleTrades_setBudget in Hsettle.
  unfold appliedAfterTurn. apply Forall2_same_length_lookup.
  split; [rewrite length_zip_with; lia |].
  intros i a' p' Ha' Hp'.
  apply lookup_zip_with_Some in Ha' as (a & p & -> & Ha & Hp).
  pose proof (Forall2_lookup_lr _ _ _ _ _ _ Hall Ha Hp) as Hbal.
  pose proof (pp_players _ _ _ _ _ PP i p) as Hledger.
  rewrite Hpl in Hledger. specialize (Hledger Hp).
  destruct (players s1 !! i) as [p1 |] eqn:Hp1.
  - symmetry in Hledger.
    destruct (specLedgerRun_balanced _ _ _ _ a _ _ _ _ Hledger Hbal)
      as (Hbal1 & Hrd & Hfac).
    assert ((applyInvestment <$> players s1) !! i = Some (applyInvestment p1)) as Hinv
      by now rewrite list_lookup_fmap, Hp1.
    pose proof (Forall2_lookup_lr _ _ _ _ _ _ Hsettle Hinv Hp') as Hsame.
    apply (ledgerBalanced_setBudget _ _ _ Hsame).
    rewrite <- Hrd, <- Hfac. now apply applyInvestment_balanced.
  - apply lookup_ge_None in Hp1. apply lookup_lt_Some in Hp.
    rewrite (pp_players_length _ _ _ _ _ PP), Hpl in Hp1. lia.
Qed.

(** ** A turn on a well-formed state returns *)

Lemma forEachIndex_returns {S} (body : nat -> S -> M S) (Inv : S -> Prop)
    (ok : nat -> Prop) :
  (∀ i s k, ok i → Inv s → ∃ s' k', body i s k = Ok (s', k') ∧ Inv s') →
  ∀ l s k, Forall ok l → Inv s →
    ∃ s' k', forEachIndex body l s k = Ok (s', k') ∧ Inv s'.
Proof.
  intros Hbody l. induction l as [| i l IH]; intros s k Hok Hinv; simpl.
  - exists s, k. split; [reflexivity | exact Hinv].
  - inversion Hok as [| ? ? Hi Hl]; subst.
    destruct (Hbody i s k Hi Hinv) as (s1 & k1 & Hstep & Hinv1).
    destruct (IH s1 k1 Hl Hinv1) as (s' & k' & Hrest & Hinv').
    exists s', k'. split; [| exact Hinv'].
    apply bind_Ok. eauto.
Qed.

Lemma Forall_seq_lt n : Forall (fun i => (i < n)%nat) (seq 0 n).
Proof. apply Forall_forall. intros i Hi. apply elem_of_seq in Hi. lia. Qed.

Lemma playerStep_returns rnd pi sf lf ef index s k p :
  products s !! pi = Some p →
  (index < length (players s))%nat → (index < length (inventory p))%nat →
  (index < length (orders p))%nat → is_Some (findSupplier (supplier p)) →
  ∃ s' k', playerStep rnd pi sf lf ef index s k = Ok (s', k').
Proof.
  intros Hp Hpl Hinv Hord [sup Hsup].
  apply lookup_lt_is_Some in Hpl as [player Hpl].
  apply lookup_lt_is_Some in Hinv as [inv Hinv].
  apply lookup_lt_is_Some in Hord as [ord Hord].
  unfold playerStep, bind, lift, fromOption, random, ret.
  rewrite Hp, Hpl. simpl. rewrite Hsup, Hinv, Hord. eauto.
Qed.

Lemma playerLoop_returns rnd pi sf lf ef s k p :
  products s !! pi = Some p →
  length (inventory p) = length (players s) →
  length (orders p) = length (players s) →
  is_Some (findSupplier (supplier p)) →
  ∃ s' k',
    forEachIndex (playerStep rnd pi sf lf ef) (seq 0 (length (players s))) s k
    = Ok (s', k').
Proof.
  intros Hp Hinv Hord Hsup.
  set (np := length (players s)).
  destruct (forEachIndex_returns (playerStep rnd pi sf lf ef)
              (fun t => length (players t) = np
                        ∧ ∃ q, products t !! pi = Some q
                               ∧ length (inventory q) = np
                               ∧ length (orders q) = np
                               ∧ is_Some (findSupplier (supplier q)))
              (fun i => (i < np)%nat)) with (l := seq 0 np) (s := s) (k := k)
    as (s' & k' & Hrun & _).
  - intros i t kt Hi (Hlen & q & Hq & Hqi & Hqo & Hqs).
    destruct (playerStep_returns rnd pi sf lf ef i t kt q) as (t' & kt' & Hstep);
      try lia; auto.
    exists t', kt'. split; [exact Hstep |].
    apply playerStep_inv in Hstep
      as (q' & player & sup & inv & ord & Hq' & _ & _ & _ & _ & _ & Ht').
    rewrite Hq in Hq'. injection Hq' as <-. cbv zeta in Ht'. rewrite Ht'. simpl.
    split; [now rewrite length_insert |].
    eexists. split; [apply list_lookup_insert_eq; eapply lookup_lt_Some; eauto |].
    simpl. rewrite !length_insert. auto.
  - apply Forall_seq_lt.
  - split; [reflexivity |]. exists p. auto.
  - eauto.
Qed.

Lemma find_is_Some {A} (f : A -> bool) (l : list A) x :
  x ∈ l → f x = true → ∃ y, find f l = Some y ∧ y ∈ l.
Proof.
  intros Hx Hfx. destruct (find f l) as [y |] eqn:Hfind.
  - exists y. split; [reflexivity |]. apply find_some in Hfind as [Hin _].
    now apply list_elem_of_In.
  - rewrite find_none_iff in Hfind. rewrite (Hfind x Hx) in Hfx. discriminate.
Qed.

Lemma aiStrategy_returns s productId difficulty p :
  aligned s → p ∈ products s → p_id p = productId →
  ∃ order, aiStrategy s productId difficulty = Ok order.
Proof.
  intros (Hnp & Hps & _) Hp Hid. unfold aiStrategy.
  destruct (find_is_Some (fun q => Nat.eqb (p_id q) productId) (products s) p)
    as (q & -> & Hq); [exact Hp | now apply Nat.eqb_eq |].
  destruct (lookup_lt_is_Some_2 (players s) 0 Hnp) as [player0 ->].
  destruct (Hps q Hq) as (Hinv & _ & _).
  destruct (lookup_lt_is_Some_2 (inventory q) 0 ltac:(lia)) as [inventory0 ->].
  eauto.
Qed.

Lemma lifecycleStep_returns rnd pi s k p :
  products s !! pi = Some p → ∃ s' k', lifecycleStep rnd pi s k = Ok (s', k').
Proof.
  intros Hp. unfold lifecycleStep, bind, lift, fromOption, random, ret.
  rewrite Hp. destruct (Qltb _ _); eauto.
Qed.

Lemma aligned_insert_product pi p p' pl v s :
  aligned s → products s !! pi = Some p →
  length pl = length (players s) →
  length (inventory p') = length (inventory p) →
  length (orders p') = length (orders p) →
  supplier p' = supplier p →
  aligned (setAiScore v (setProducts (<[pi := p']> (products s)) (setPlayers pl s))).
Proof.
  intros (Hnp & Hps & Hoff) Hp Hpl Hinv Hord Hsup.
  assert (p ∈ products s) as Hin by (eapply list_elem_of_lookup_2; eauto).
  destruct (Hps p Hin) as (Hpi & Hpo & Hpsup).
  unfold aligned. simpl. rewrite Hpl. split; [exact Hnp |]. split; [| exact Hoff].
  intros q Hq. apply list_elem_of_lookup in Hq as [i Hq].
  destruct (decide (i = pi)) as [-> | Hne].
  - rewrite list_lookup_insert_eq in Hq by (eapply lookup_lt_Some; eauto).
    injection Hq as <-. rewrite Hinv, Hord, Hsup. auto.
  - rewrite list_lookup_insert_ne in Hq by congruence.
    apply Hps. eapply list_elem_of_lookup_2; eauto.
Qed.

Lemma productStep_returns rnd gameMode pi s k :
  aligned s → (pi < length (products s))%nat →
  ∃ s' k', productStep rnd gameMode pi s k = Ok (s', k')
           ∧ aligned s' ∧ length (products s') = length (products s).
Proof.
  intros Hal Hpi. pose proof Hal as (Hnp & Hps & Hoff).
  destruct (lookup_lt_is_Some_2 _ _ Hpi) as [p Hp].
  assert (p ∈ products s) as Hin by (eapply list_elem_of_lookup_2; eauto).
  destruct (Hps p Hin) as (Hinvl & Hordl & Hsup).
  set (sf := seasonalFactors s (currentSeason s)).
  set (lf := lifecycleFactorOf (lifecycle p)).
  set (ef := environmentalFactorOf (environmentalEvent s)).
  destruct (playerLoop_returns rnd pi sf lf ef s k p Hp Hinvl Hordl Hsup)
    as (s1 & k1 & Hloop).
  destruct (playerLoop_inv _ _ _ _ _ _ _ _ _ _ _ Hp Hloop) as (p1 & SP & Hs1 & _).
  assert (products s1 = <[pi := p1]> (products s)) as Hps1 by now rewrite Hs1.
  assert (products s1 !! pi = Some p1) as Hp1
    by (rewrite Hps1; now apply list_lookup_insert_eq).
  destruct (lifecycleStep_returns rnd pi s1 k1 p1 Hp1) as (s2 & k2 & Hlife).
  destruct (lifecycleStep_inv _ _ _ _ _ _ Hlife) as (p1' & p' & Hp1' & Hp' & Hs2 & _).
  rewrite Hp1 in Hp1'. injection Hp1' as <-.
  destruct SP as [Hid Hname Hlc Hsupp Hhist Hil Hol Hpll _ _].
  assert (inventory p' = inventory p1 ∧ orders p' = orders p1
          ∧ supplier p' = supplier p1 ∧ demandHistory p' = demandHistory p1)
    as (Einv & Eord & Esup & Ehist) by (destruct Hp' as [-> | ->]; auto).
  assert (s2 = setAiScore (aiScore s)
                 (setProducts (<[pi := p']> (products s))
                    (setPlayers (players s1) s))) as Hs2'.
  { rewrite Hs2, Hps1, list_insert_insert_eq.
    now rewrite (setProducts_over _ _ _ _ _ Hs1). }
  assert (aligned s2) as Hal2.
  { rewrite Hs2'. eapply aligned_insert_product; eauto; congruence. }
  assert (products s2 !! pi = Some p') as Hp2.
  { rewrite Hs2'. simpl. now apply list_lookup_insert_eq. }
  destruct (aiStrategy_returns s2 (p_id p') (difficultyOf gameMode) p' Hal2)
    as [aiOrder Hstrat]; [eapply list_elem_of_lookup_2; eauto | reflexivity |].
  destruct (lookup_lt_is_Some_2 (inventory p') 0) as [inventory0 Hinv0];
    [rewrite Einv, Hil, Hinvl; exact Hnp |].
  assert (is_Some (last (demandHistory p'))) as [lastDemand Hlast].
  { rewrite Ehist, Hhist.
    destruct (length (players s)) as [| m]; [lia |].
    rewrite seq_S, fmap_app, app_assoc. simpl. rewrite last_snoc. eauto. }
  eexists _, k2. split; [| split].
  - unfold productStep. apply bind_Ok. exists p, k.
    split; [now apply lift_fromOption_Ok |].
    apply bind_Ok. exists s1, k1. split; [exact Hloop |].
    apply bind_Ok. exists s2, k2. split; [exact Hlife |].
    apply lift_Ok. split; [| reflexivity].
    unfold aiStep. rewrite Hp2, Hstrat, Hinv0, Hlast. reflexivity.
  - rewrite Hs2'. eapply aligned_insert_product; eauto; congruence.
  - rewrite Hs2'. simpl. now rewrite length_insert.
Qed.

Lemma settleOffer_returns o pl :
  (from o < length pl)%nat → (to o < length pl)%nat →
  ∃ pl', settleOffer o pl = Ok pl' ∧ length pl' = length pl.
Proof.
  intros Hfrom Hto. unfold settleOffer.
  destruct (lookup_lt_is_Some_2 _ _ Hfrom) as [payer ->].
  destruct (Qgeb _ _); [| eauto].
  destruct (lookup_lt_is_Some_2
              (<[from o := setBudget (budget payer - amount o) payer]> pl) (to o))
    as [payee ->]; [now rewrite length_insert |].
  eexists. split; [reflexivity |]. now rewrite !length_insert.
Qed.

Lemma settleTrades_returns offers : ∀ pl,
  (∀ o, o ∈ offers → (from o < length pl)%nat ∧ (to o < length pl)%nat) →
  ∃ pl', settleTrades offers pl = Ok pl' ∧ length pl' = length pl.
Proof.
  induction offers as [| o os IH]; intros pl Hall; simpl; [eauto |].
  destruct (Hall o) as [Hfrom Hto]; [left |].
  destruct (settleOffer_returns o pl Hfrom Hto) as (pl1 & -> & Hlen).
  destruct (IH pl1) as (pl' & Hrun & Hlen').
  - intros o' Ho'. rewrite Hlen. apply Hall. now right.
  - exists pl'. split; [exact Hrun | congruence].
Qed.

Lemma startTurn_returns rnd s k : ∃ s0 k0, startTurn rnd s k = Ok (s0, k0).
Proof.
  unfold startTurn, simulateEnvironmentalEvent, bind, random, ret.
  destruct (Qltb _ _); eauto.
Qed.

(** On a well-formed state the turn returns a state, which is well-formed
    again. *)
Lemma nextTurn_returns rnd gameMode s k :
  aligned s → ∃ s' k', nextTurn rnd gameMode s k = Ok (s', k') ∧ aligned s'.
Proof.
  intros Hal.
  destruct (startTurn_returns rnd s k) as (s0 & k0 & Hstart).
  pose proof (startTurn_inv _ _ _ _ _ Hstart) as (_ & _ & _ & Hps & Hpl & _ & Hoff).
  assert (aligned s0) as Hal0.
  { unfold aligned. rewrite Hps, Hpl, Hoff. exact Hal. }
  destruct (forEachIndex_returns (productStep rnd gameMode)
              (fun t => aligned t ∧ length (products t) = length (products s0))
              (fun i => (i < length (products s0))%nat))
    with (l := seq 0 (length (products s0))) (s := s0) (k := k0)
    as (s1 & k1 & Hloop & Hal1 & Hlen1).
  - intros i t kt Hi [Halt Hlen].
    destruct (productStep_returns rnd gameMode i t kt Halt) as (t' & kt' & H1 & H2 & H3);
      [lia |].
    exists t', kt'. split; [exact H1 | split; [exact H2 | congruence]].
  - apply Forall_seq_lt.
  - auto.
  - destruct Hal1 as (Hnp1 & Hps1 & Hoff1).
    destruct (settleTrades_returns (tradeOffers s1) (applyInvestment <$> players s1))
      as (pl & Hsettle & Hlenpl).
    { intros o Ho. rewrite length_fmap. now apply Hoff1. }
    rewrite length_fmap in Hlenpl.
    eexists _, k1. split.
    + unfold nextTurn. apply bind_Ok. exists s0, k0. split; [exact Hstart |].
      apply bind_Ok. exists s1, k1. split; [exact Hloop |].
      apply bind_Ok. exists pl, k1. split; [apply lift_Ok; auto |].
      reflexivity.
    + unfold aligned. simpl. rewrite Hlenpl. split; [exact Hnp1 |].
      split; [exact Hps1 |]. intros o Ho. inversion Ho.
Qed.

(** ** The properties on the first turn of a game *)

(** The step formulas on the first turn of a new game in which player 0 has
    ordered 10 units of product 1. *)
Lemma nextTurn_step_formulas_first_turn :
  ∃ s' k',
    let s := handleOrderChange 0 1 10 initialState in
    nextTurn calm normal s 0%nat = Ok (s', k')
    ∧ let sf := seasonalFactors s (currentSeason s') in
      let ef := environmentalFactorOf (environmentalEvent s') in
      (∀ pi p j, products s !! pi = Some p → (j < length (players s))%nat →
         ∃ sup inv ord p',
           findSupplier (supplier p) = Some sup ∧ inventory p !! j = Some inv
           ∧ orders p !! j = Some ord ∧ products s' !! pi = Some p'
           ∧ inventory p' !! j
             = Some (specNewInventory inv ord sup
                       (realizedDemand sf (lifecycleFactorOf (lifecycle p)) ef j))
           ∧ orders p' !! j = Some 0)
      ∧ ∃ k0 ledgers,
          length ledgers = length (players s)
          ∧ (∀ j player, players s !! j = Some player →
               ledgers !! j
               = specLedgerRun sf ef j (jitterAt calm k0 (length (players s)) j) 0
                   (products s) player)
          ∧ settleTrades (tradeOffers s) (applyInvestment <$> ledgers)
            = Ok (players s').
Proof.
  eexists _, _. intros s. split; [vm_compute; reflexivity |].
  eapply (nextTurn_step_formulas calm normal s 0%nat).
  vm_compute; reflexivity.
Defined.

(** The settlement of a queue of one offer between two players. *)
Lemma trades_settled_in_queue_order_two_players :
  ∃ s' k',
    let s := handleTradeOffer 0 1 (resizePlayers 2 initialState) in
    nextTurn calm normal s 0%nat = Ok (s', k')
    ∧ tradeOffers s' = []
    ∧ ∃ s0 k0 s1,
        startTurn calm s 0%nat = Ok (s0, k0)
        ∧ processProducts calm normal s0 k0 = Ok (s1, k')
        ∧ settled (tradeOffers s) (applyInvestment <$> players s1) (players s').
Proof.
  eexists _, _. intros s. split; [vm_compute; reflexivity |].
  eapply (trades_settled_in_queue_order calm normal s 0%nat).
  vm_compute; reflexivity.
Defined.


(** The shadow outcome for product 1 on the initial state. *)
Lemma ai_shadow_outcome_initial :
  ∃ s' k',
    length (players initialState) = 1%nat
    ∧ productStep calm normal 0 initialState 0%nat = Ok (s', k')
    ∧ (∃ p sup inv ord p' aiOrder,
         products initialState !! 0%nat = Some p
         ∧ findSupplier (supplier p) = Some sup
         ∧ inventory p !! 0%nat = Some inv ∧ orders p !! 0%nat = Some ord
         ∧ products s' !! 0%nat = Some p'
         ∧ aiStrategy s' (p_id p') (difficultyOf normal) = Ok aiOrder
         ∧ let demand :=
             realizedDemand (seasonalFactors initialState (currentSeason initialState))
               (lifecycleFactorOf (lifecycle p))
               (environmentalFactorOf (environmentalEvent initialState)) 0 in
           let stock := specNewInventory inv ord sup demand in
           inventory p' !! 0%nat = Some stock
           ∧ aiScore s' = aiScore initialState + aiOutcome stock demand aiOrder)
    ∧ ∀ t t', aiStep normal 0 t = Ok t' →
        players t' = players t ∧ products t' = products t.
Proof.
  eexists _, _. split; [reflexivity |]. split; [vm_compute; reflexivity |].
  eapply (ai_shadow_outcome calm normal 0 initialState 0%nat).
  - reflexivity.
  - vm_compute; reflexivity.
Defined.

(** The stock after the turn in which one unit was ordered. *)
Lemma inventory_nonnegative_first_turn :
  ∃ s' k',
    nextTurn calm normal (handleOrderChange 0 1 1 initialState) 0%nat = Ok (s', k')
    ∧ ∀ pi p' j x,
        products s' !! pi = Some p' → (j < length (players s'))%nat →
        inventory p' !! j = Some x → 0 <= x.
Proof.
  eexists _, _. split; [vm_compute; reflexivity |].
  eapply (inventory_nonnegative calm normal
           (handleOrderChange 0 1 1 initialState) 0%nat).
  vm_compute; reflexivity.
Defined.

(** Two players seated: every history, empty before the turn, holds two
    entries after it. *)
Lemma demandHistory_two_players :
  ∃ s' k',
    let s := resizePlayers 2 initialState in
    nextTurn calm normal s 0%nat = Ok (s', k')
    ∧ length (players s) = 2%nat
    ∧ ∀ pi p', products s' !! pi = Some p' →
        ∃ p appended,
          products s !! pi = Some p
          ∧ demandHistory p' = demandHistory p ++ appended
          ∧ length appended = length (players s).
Proof.
  eexists _, _. intros s. split; [vm_compute; reflexivity |].
  split; [reflexivity |].
  eapply (demandHistory_one_entry_per_player calm normal s 0%nat).
  vm_compute; reflexivity.
Defined.

(** * Further properties of the engine *)

(** ** Rounding *)

Lemma Qfloor_half_int z : Qfloor (inject_Z z + 0.5) = z.
Proof.
  pose proof (Qfloor_le (inject_Z z + 0.5)) as Hle.
  pose proof (Qlt_floor (inject_Z z + 0.5)) as Hlt.
  set (f := Qfloor (inject_Z z + 0.5)) in *.
  destruct (Z_lt_le_dec z f) as [Hbig | Hsmall].
  - assert (inject_Z (z + 1) <= inject_Z f) as H by (rewrite <- Zle_Qle; lia).
    rewrite inject_Z_plus in H. change (inject_Z 1) with 1 in H. lra.
  - destruct (Z_lt_le_dec f z) as [Hless | Hge]; [| lia].
    assert (inject_Z (f + 1) <= inject_Z z) as H by (rewrite <- Zle_Qle; lia).
    lra.
Qed.

Lemma Math_round_int z : Math_round (inject_Z z) = inject_Z z.
Proof. unfold Math_round. now rewrite Qfloor_half_int. Qed.

Lemma Math_round_mono x y : x <= y → Math_round x <= Math_round y.
Proof.
  intros H. unfold Math_round. rewrite <- Zle_Qle. apply Qfloor_resp_le. lra.
Qed.

Lemma Math_round_le_int x z : x <= inject_Z z → Math_round x <= inject_Z z.
Proof. intros H. rewrite <- (Math_round_int z). now apply Math_round_mono. Qed.

(** ** The global market model, further *)

(** At home the conversion returns an integer baseline as it is. *)
Lemma simulateGlobalMarket_home z : simulateGlobalMarket (inject_Z z) USA = inject_Z z.
Proof.
  unfold simulateGlobalMarket, Math_round. f_equal.
  rewrite <- (Qfloor_half_int z) at 2. apply Qfloor_comp.
  unfold exchangeRates, transportCosts. ring.
Qed.

(** X1: The conversion never reverses the order of two baselines. *)
Theorem simulateGlobalMarket_monotone baseline baseline' country :
  baseline <= baseline' →
  simulateGlobalMarket baseline country <= simulateGlobalMarket baseline' country.
Proof.
  intros Hle. unfold simulateGlobalMarket. apply Math_round_mono.
  apply Qmult_le_compat_r; [apply Qmult_le_compat_r; [exact Hle |] |];
    destruct country; vm_compute; discriminate.
Qed.

Lemma simulateGlobalMarket_monotone_example :
  19 <= 20 ∧ simulateGlobalMarket 19 Japan <= simulateGlobalMarket 20 Japan.
Proof.
  split; [vm_compute; discriminate |].
  apply (simulateGlobalMarket_monotone 19 20 Japan). vm_compute; discriminate.
Defined.

(** ** The AI ordering policy, further *)

(** X3: Whatever the state, an order the policy returns is an integer that the
    budget of player 0 covers at 10 per unit, and it does not exceed the
    production capacity of player 0 when that is an integer. *)
Theorem aiStrategy_within_limits gameState productId difficulty player0 order :
  players gameState !! 0%nat = Some player0 →
  aiStrategy gameState productId difficulty = Ok order →
  (∃ z : Z, order = inject_Z z)
  ∧ order * 10 <= budget player0
  ∧ ∀ c : Z, productionCapacity player0 == inject_Z c → order <= inject_Z c.
Proof.
  intros Hpl. unfold aiStrategy.
  destruct (find _ _) as [product |]; [| discriminate].
  rewrite Hpl. destruct (inventory product !! 0%nat) as [inventory0 |]; [| discriminate].
  intros [= <-]. unfold Math_min, Math_max, Math_floor.
  set (raw := Qmax 0 _). set (fl := Qfloor (budget player0 / 10)).
  split; [eexists; reflexivity |]. split.
  - assert (Math_round (Qmin (Qmin raw (productionCapacity player0)) (inject_Z fl))
            <= inject_Z fl) as Hle by (apply Math_round_le_int, Q.le_min_r).
    pose proof (Qfloor_le (budget player0 / 10)) as Hfl. fold fl in Hfl.
    assert (budget player0 / 10 * 10 == budget player0) as Hdiv by (field; discriminate).
    lra.
  - intros c Hc. apply Math_round_le_int. rewrite <- Hc.
    eapply Qle_trans; [apply Q.le_min_l | apply Q.le_min_r].
Qed.

Lemma aiStrategy_within_limits_initial :
  ∃ order,
    players initialState !! 0%nat = Some newPlayer
    ∧ aiStrategy initialState 1 (difficultyOf hard) = Ok order
    ∧ (∃ z : Z, order = inject_Z z)
    ∧ order * 10 <= budget newPlayer
    ∧ ∀ c : Z, productionCapacity newPlayer == inject_Z c → order <= inject_Z c.
Proof.
  eexists. split; [reflexivity |]. split; [vm_compute; reflexivity |].
  eapply (aiStrategy_within_limits initialState 1 (difficultyOf hard) newPlayer).
  - reflexivity.
  - vm_compute; reflexivity.
Defined.

Lemma aiStrategy_nonneg_initial :
  ∃ order,
    players initialState !! 0%nat = Some newPlayer
    ∧ 0 <= budget newPlayer ∧ 0 <= productionCapacity newPlayer
    ∧ aiStrategy initialState 1 (difficultyOf hard) = Ok order
    ∧ 0 <= order ∧ ∃ z : Z, order = inject_Z z.
Proof.
  eexists. split; [reflexivity |].
  split; [vm_compute; discriminate |]. split; [vm_compute; discriminate |].
  split; [vm_compute; reflexivity |].
  eapply (aiStrategy_nonneg initialState 1 (difficultyOf hard) newPlayer).
  - reflexivity.
  - vm_compute; discriminate.
  - vm_compute; discriminate.
  - vm_compute; reflexivity.
Defined.

(** X5: With no demand observed yet the forecast is 0: the policy orders
    nothing for a product whose history is empty, whatever the season, the
    stage and the difficulty, as long as slot 0 holds no negative stock and
    player 0 no negative budget or capacity. *)
Theorem aiStrategy_empty_history gameState productId difficulty product player0
    inventory0 :
  find (fun p => Nat.eqb (p_id p) productId) (products gameState) = Some product →
  demandHistory product = [] →
  players gameState !! 0%nat = Some player0 →
  inventory product !! 0%nat = Some inventory0 →
  0 <= inventory0 → 0 <= budget player0 → 0 <= productionCapacity player0 →
  aiStrategy gameState productId difficulty = Ok 0.
Proof.
  intros Hfind Hhist Hpl Hinv Hi Hb Hc. unfold aiStrategy.
  rewrite Hfind, Hhist, Hpl, Hinv. simpl. f_equal.
  transitivity (Math_round (inject_Z 0)); [| apply Math_round_int].
  unfold Math_round. f_equal. apply Qfloor_comp. apply Qplus_inj_r.
  assert (0 <= inject_Z (Qfloor (budget player0 / 10))) as Hfl.
  { rewrite <- (Zle_Qle 0). apply Qfloor_resp_le with (x := 0).
    apply Qle_shift_div_l; [reflexivity | lra]. }
  unfold Math_min, Math_max, Math_floor.
  set (sf := seasonalFactors _ _). set (lf := lifecycleFactorOf _).
  set (fl := inject_Z (Qfloor (budget player0 / 10))) in *.
  assert (Qmax 0 (0 * sf * (1 + lf) * (1 + 0.2 * difficulty) - inventory0) == 0) as E1.
  { apply Q.max_l. lra. }
  set (m1 := Qmax 0 _) in *.
  destruct (Q.min_spec m1 (productionCapacity player0)) as [[H2 E2] | [H2 E2]];
    set (m2 := Qmin m1 _) in *;
    destruct (Q.min_spec m2 fl) as [[H3 E3] | [H3 E3]];
    change (inject_Z 0) with 0; lra.
Qed.

Lemma aiStrategy_empty_history_initial :
  aiStrategy initialState 2 (difficultyOf hard) = Ok 0.
Proof.
  eapply (aiStrategy_empty_history initialState 2 (difficultyOf hard) _ newPlayer 50).
  - reflexivity.
  - reflexivity.
  - reflexivity.
  - reflexivity.
  - vm_compute; discriminate.
  - vm_compute; discriminate.
  - vm_compute; discriminate.
Defined.

(** ** The turn counter, the season and the event *)

Lemma startTurn_cursor rnd s k s0 k0 :
  startTurn rnd s k = Ok (s0, k0) →
  k0 = (k + if Qltb (rnd k) 0.1 then 2 else 1)%nat
  ∧ environmentalEvent s0
    = if Qltb (rnd k) 0.1
      then eventAt (Qfloor (rnd (S k) * ofNat (length events)))
      else None.
Proof.
  unfold startTurn, simulateEnvironmentalEvent, bind, random, ret.
  destruct (Qltb (rnd k) 0.1); intros [= <- <-]; simpl; split; auto; lia.
Qed.

Lemma environmentalFactorOf_eventAt i :
  0.7 <= environmentalFactorOf (eventAt i) <= 1.3.
Proof.
  unfold eventAt. destruct (i <? 0)%Z; [split; vm_compute; discriminate |].
  destruct (Z.to_nat i) as [| [| [| [| n]]]]; simpl; split; vm_compute; discriminate.
Qed.

(** X6: A turn that returns has advanced the counter by one and set the season
    to the entry of the four-season list at the new counter modulo 4; the
    list is gone through again every four turns, and the seasonal factors
    are never changed. *)
Theorem nextTurn_season rnd gameMode s k s' k' :
  nextTurn rnd gameMode s k = Ok (s', k') →
  turn s' = (turn s + 1)%nat
  ∧ currentSeason s' = seasonOfTurn (turn s')
  ∧ seasonOfTurn (turn s' + 4) = currentSeason s'
  ∧ seasonalFactors s' = seasonalFactors s.
Proof.
  intros Hrun.
  apply nextTurn_inv in Hrun
    as (s0 & k0 & s1 & Hstart & _ & _ & _ & _ & _ & _ & Hturn & Hseason & Hfac & _).
  apply startTurn_inv in Hstart as (Hturn0 & Hseason0 & Hfac0 & _).
  rewrite Hturn, Hseason, Hfac, Hturn0, Hseason0, Hfac0.
  repeat split. unfold seasonOfTurn.
  replace (turn s + 1 + 4)%nat with (turn s + 1 + 1 * 4)%nat by lia.
  now rewrite Nat.Div0.mod_add.
Qed.

Lemma nextTurn_season_first_turn :
  ∃ s' k',
    nextTurn calm normal initialState 0%nat = Ok (s', k')
    ∧ turn s' = (turn initialState + 1)%nat
    ∧ currentSeason s' = seasonOfTurn (turn s')
    ∧ seasonOfTurn (turn s' + 4) = currentSeason s'
    ∧ seasonalFactors s' = seasonalFactors initialState.
Proof.
  eexists _, _. split; [vm_compute; reflexivity |].
  eapply (nextTurn_season calm normal initialState 0%nat). vm_compute; reflexivity.
Defined.

Lemma nextTurn_event_factor rnd gameMode s k s' k' :
  nextTurn rnd gameMode s k = Ok (s', k') →
  0.7 <= environmentalFactorOf (environmentalEvent s') <= 1.3.
Proof.
  intros Hrun.
  apply nextTurn_inv in Hrun
    as (s0 & k0 & s1 & Hstart & _ & _ & _ & _ & _ & _ & _ & _ & _ & Hev).
  apply startTurn_cursor in Hstart as [_ Hev0]. rewrite Hev, Hev0.
  destruct (Qltb (rnd k) 0.1); [apply environmentalFactorOf_eventAt |].
  split; vm_compute; discriminate.
Qed.

(** X7: The event of a turn is rolled from the first draw: none when that draw
    is 0.1 or more, otherwise the catalogue entry the second draw selects.
    Whatever the draws, the demand multiplier of the turn lies between 0.7
    and 1.3. *)
Theorem nextTurn_event rnd gameMode s k s' k' :
  nextTurn rnd gameMode s k = Ok (s', k') →
  environmentalEvent s'
  = (if Qltb (rnd k) 0.1
     then eventAt (Qfloor (rnd (S k) * ofNat (length events)))
     else None)
  ∧ 0.7 <= environmentalFactorOf (environmentalEvent s') <= 1.3.
Proof.
  intros Hrun.
  pose proof (nextTurn_event_factor _ _ _ _ _ _ Hrun) as Hbounds.
  apply nextTurn_inv in Hrun
    as (s0 & k0 & s1 & Hstart & _ & _ & _ & _ & _ & _ & _ & _ & _ & Hev).
  apply startTurn_cursor in Hstart as [_ Hev0].
  split; [now rewrite Hev, Hev0 | exact Hbounds].
Qed.

Lemma nextTurn_event_first_turn :
  ∃ s' k',
    nextTurn calm normal initialState 0%nat = Ok (s', k')
    ∧ environmentalEvent s'
      = (if Qltb (calm 0%nat) 0.1
         then eventAt (Qfloor (calm 1%nat * ofNat (length events)))
         else None)
    ∧ 0.7 <= environmentalFactorOf (environmentalEvent s') <= 1.3.
Proof.
  eexists _, _. split; [vm_compute; reflexivity |].
  eapply (nextTurn_event calm normal initialState 0%nat). vm_compute; reflexivity.
Defined.

(** X8: A turn that returns has called [Math.random] once or twice for the
    event, once for every (product, player) pair and once more for every
    product. *)
Theorem nextTurn_draws rnd gameMode s k s' k' :
  nextTurn rnd gameMode s k = Ok (s', k') →
  k' = (k + (if Qltb (rnd k) 0.1 then 2 else 1)
        + length (products s) * (length (players s) + 1))%nat.
Proof.
  intros Hrun.
  apply nextTurn_inv in Hrun as (s0 & k0 & s1 & Hstart & Hloop & _).
  pose proof (startTurn_inv _ _ _ _ _ Hstart) as (_ & _ & _ & Hps & Hpl & _).
  apply startTurn_cursor in Hstart as [-> _].
  unfold processProducts in Hloop.
  apply productLoop_inv in Hloop as [_ ->]; [| lia].
  rewrite Hps, Hpl. lia.
Qed.

Lemma nextTurn_draws_first_turn :
  ∃ s' k',
    nextTurn calm normal initialState 0%nat = Ok (s', k')
    ∧ k' = (0 + (if Qltb (calm 0%nat) 0.1 then 2 else 1)
            + length (products initialState)
              * (length (players initialState) + 1))%nat.
Proof.
  eexists _, _. split; [vm_compute; reflexivity |].
  eapply (nextTurn_draws calm normal initialState 0%nat). vm_compute; reflexivity.
Defined.

(** ** Products across a turn *)

(** X9: A turn never moves a product back in its lifecycle: the stage stays or
    advances by one step, and a product in decline stays in decline. *)
Theorem lifecycle_forward_only rnd gameMode s k s' k' :
  nextTurn rnd gameMode s k = Ok (s', k') →
  ∀ pi p', products s' !! pi = Some p' →
    ∃ p, products s !! pi = Some p
         ∧ (lifecycleIndex (lifecycle p) ≤ lifecycleIndex (lifecycle p')
            ≤ lifecycleIndex (lifecycle p) + 1)%nat
         ∧ (lifecycle p = decline → lifecycle p' = decline).
Proof.
  intros Hrun pi p' Hp'.
  destruct (nextTurn_products _ _ _ _ _ _ Hrun) as [_ Hall].
  destruct (Hall pi p' Hp') as (p & Hp & SS).
  exists p. split; [exact Hp |].
  destruct (ss_lifecycle _ _ _ _ _ SS) as [-> | ->].
  - split; [lia | auto].
  - destruct (lifecycle p); cbv; (split; [lia | congruence]).
Qed.

Lemma lifecycle_forward_only_first_turn :
  ∃ s' k',
    nextTurn calm normal initialState 0%nat = Ok (s', k')
    ∧ ∀ pi p', products s' !! pi = Some p' →
        ∃ p, products initialState !! pi = Some p
             ∧ (lifecycleIndex (lifecycle p) ≤ lifecycleIndex (lifecycle p')
                ≤ lifecycleIndex (lifecycle p) + 1)%nat
             ∧ (lifecycle p = decline → lifecycle p' = decline).
Proof.
  eexists _, _. split; [vm_compute; reflexivity |].
  eapply (lifecycle_forward_only calm normal initialState 0%nat).
  vm_compute; reflexivity.
Defined.

Lemma simulateGlobalMarket_baseline_nonneg index :
  0 <= simulateGlobalMarket baselineDemand (countryOfSlot index).
Proof.
  unfold countryOfSlot.
  pose proof (Nat.mod_upper_bound index 4 ltac:(lia)) as Hlt.
  destruct (index mod 4)%nat as [| [| [| [| n]]]]; try lia;
    vm_compute; discriminate.
Qed.

Lemma Math_round_nonneg x : 0 <= x → 0 <= Math_round x.
Proof. intros H. change 0 with (Math_round (inject_Z 0)) at 1. now apply Math_round_mono. Qed.

Lemma realizedDemand_nonneg sf l ef index :
  0 <= sf → 0 <= ef → 0 <= realizedDemand sf (lifecycleFactorOf l) ef index.
Proof.
  intros Hsf Hef. unfold realizedDemand. apply Math_round_nonneg.
  pose proof (simulateGlobalMarket_baseline_nonneg index) as Hg.
  assert (0 <= 1 + lifecycleFactorOf l) as Hl by (destruct l; vm_compute; discriminate).
  repeat apply Qmult_le_0_compat; assumption.
Qed.

(** X10: When the factor of the season is not negative, every demand a turn
    appends to a history is a non-negative integer, whatever event was
    rolled. *)
Theorem appended_demand_nonnegative rnd gameMode s k s' k' :
  nextTurn rnd gameMode s k = Ok (s', k') →
  0 <= seasonalFactors s (currentSeason s') →
  ∀ pi p', products s' !! pi = Some p' →
    ∃ p appended,
      products s !! pi = Some p
      ∧ demandHistory p' = demandHistory p ++ appended
      ∧ Forall (fun d => 0 <= d ∧ ∃ z : Z, d = inject_Z z) appended.
Proof.
  intros Hrun Hsf pi p' Hp'.
  destruct (nextTurn_event_factor _ _ _ _ _ _ Hrun) as [Hef _].
  destruct (nextTurn_products _ _ _ _ _ _ Hrun) as [_ Hall].
  destruct (Hall pi p' Hp') as (p & Hp & SS).
  exists p. eexists. split; [exact Hp |]. split; [apply (ss_history _ _ _ _ _ SS) |].
  apply Forall_fmap, Forall_forall. intros j _. simpl. split.
  - apply realizedDemand_nonneg; [exact Hsf | lra].
  - eexists. reflexivity.
Qed.

Lemma appended_demand_nonnegative_first_turn :
  ∃ s' k',
    nextTurn calm normal initialState 0%nat = Ok (s', k')
    ∧ 0 <= seasonalFactors initialState (currentSeason s')
    ∧ ∀ pi p', products s' !! pi = Some p' →
        ∃ p appended,
          products initialState !! pi = Some p
          ∧ demandHistory p' = demandHistory p ++ appended
          ∧ Forall (fun d => 0 <= d ∧ ∃ z : Z, d = inject_Z z) appended.
Proof.
  eexists _, _. split; [vm_compute; reflexivity |].
  split; [vm_compute; discriminate |].
  eapply (appended_demand_nonnegative calm normal initialState 0%nat).
  - vm_compute; reflexivity.
  - vm_compute; discriminate.
Defined.

(** ** Players across a turn *)

Lemma specLedgerRun_fields sf ef j jitter ps : ∀ i pl pl',
  specLedgerRun sf ef j jitter i ps pl = Some pl' →
  productionCapacity pl' = productionCapacity pl
  ∧ rdInvestment pl' = rdInvestment pl
  ∧ facilityInvestment pl' = facilityInvestment pl
  ∧ holdingCost pl <= holdingCost pl'
  ∧ stockoutPenalty pl <= stockoutPenalty pl'.
Proof.
  induction ps as [| p ps IH]; simpl; intros i pl pl' Hrun.
  - injection Hrun as <-. repeat split; lra.
  - destruct (specSlotStep sf ef j (jitter i) p pl) as [pl1 |] eqn:Hstep;
      [| discriminate].
    simpl in Hrun. unfold specSlotStep in Hstep.
    destruct (findSupplier (supplier p)) as [sup |]; [| discriminate].
    destruct (inventory p !! j) as [inv |]; [| discriminate].
    destruct (orders p !! j) as [ord |]; [| discriminate].
    simpl in Hstep. injection Hstep as <-.
    destruct (IH _ _ _ Hrun) as (H1 & H2 & H3 & H4 & H5). simpl in *.
    repeat split; auto.
    + eapply Qle_trans; [| exact H4].
      unfold specHoldingCost, specNewInventory.
      pose proof (Q.le_max_l 0 (inv + ord * reliability sup
                                 - realizedDemand sf (lifecycleFactorOf (lifecycle p)) ef j)).
      lra.
    + eapply Qle_trans; [| exact H5].
      unfold specStockoutPenalty.
      pose proof (Q.le_max_l 0 (realizedDemand sf (lifecycleFactorOf (lifecycle p)) ef j
                                 - inv)).
      lra.
Qed.

(** The player a turn returns in slot [j]: the pre-turn player taken through
    the ledger steps of the products, then charged the investments, then
    given the budget the settlement leaves. *)
Lemma nextTurn_player rnd gameMode s k s' k' j p' :
  nextTurn rnd gameMode s k = Ok (s', k') →
  players s' !! j = Some p' →
  ∃ p p1 sf ef jitter,
    players s !! j = Some p
    ∧ specLedgerRun sf ef j jitter 0 (products s) p = Some p1
    ∧ setBudget (budget (applyInvestment p1)) p' = applyInvestment p1.
Proof.
  intros Hrun Hp'.
  apply nextTurn_inv in Hrun as (s0 & k0 & s1 & Hstart & _ & PP & Hsettle & _).
  apply startTurn_inv in Hstart as (_ & _ & _ & Hps & Hpl & _).
  apply settleTrades_setBudget in Hsettle.
  destruct (Forall2_lookup_r _ _ _ _ _ Hsettle Hp') as (q & Hq & Hsame).
  rewrite list_lookup_fmap in Hq.
  destruct (players s1 !! j) as [p1 |] eqn:Hp1; [| discriminate].
  simpl in Hq. injection Hq as <-.
  assert (j < length (players s))%nat as Hj.
  { apply lookup_lt_Some in Hp1.
    now rewrite (pp_players_length _ _ _ _ _ PP), Hpl in Hp1. }
  destruct (lookup_lt_is_Some_2 _ _ Hj) as [p Hp].
  pose proof (pp_players _ _ _ _ _ PP j p) as Hledger.
  rewrite Hpl, Hps, take_ge, Hp1 in Hledger by lia. specialize (Hledger Hp).
  exists p, p1. eexists _, _, _. split; [exact Hp |]. split; [symmetry; exact Hledger |].
  exact Hsame.
Qed.

(** X11: The pending investments are consumed by the turn: every player comes
    back with both pending amounts at 0 and with a production capacity
    raised by [floor (facilityInvestment / 100)]. *)
Theorem investments_consumed rnd gameMode s k s' k' :
  nextTurn rnd gameMode s k = Ok (s', k') →
  ∀ j p', players s' !! j = Some p' →
    ∃ p, players s !! j = Some p
         ∧ rdInvestment p' = 0 ∧ facilityInvestment p' = 0
         ∧ productionCapacity p'
           = productionCapacity p + Math_floor (facilityInvestment p / 100).
Proof.
  intros Hrun j p' Hp'.
  destruct (nextTurn_player _ _ _ _ _ _ _ _ Hrun Hp')
    as (p & p1 & sf & ef & jitter & Hp & Hledger & Hsame).
  destruct (specLedgerRun_fields _ _ _ _ _ _ _ _ Hledger) as (Hcap & _ & Hfac & _).
  exists p. split; [exact Hp |].
  assert (rdInvestment p' = rdInvestment (applyInvestment p1)
          ∧ facilityInvestment p' = facilityInvestment (applyInvestment p1)
          ∧ productionCapacity p' = productionCapacity (applyInvestment p1))
    as (-> & -> & ->) by (rewrite <- Hsame; destruct p'; auto).
  simpl. rewrite Hcap, Hfac. auto.
Qed.

Lemma investments_consumed_first_turn :
  ∃ s' k',
    let s := handleInvestmentChange 0 facility 250 initialState in
    nextTurn calm normal s 0%nat = Ok (s', k')
    ∧ ∀ j p', players s' !! j = Some p' →
        ∃ p, players s !! j = Some p
             ∧ rdInvestment p' = 0 ∧ facilityInvestment p' = 0
             ∧ productionCapacity p'
               = productionCapacity p + Math_floor (facilityInvestment p / 100).
Proof.
  eexists _, _. intros s. split; [vm_compute; reflexivity |].
  eapply (investments_consumed calm normal s 0%nat). vm_compute; reflexivity.
Defined.

(** X12: The holding-cost and stockout-penalty accumulators of a player never
    decrease over a turn, whatever was ordered. *)
Theorem cost_accumulators_never_decrease rnd gameMode s k s' k' :
  nextTurn rnd gameMode s k = Ok (s', k') →
  ∀ j p', players s' !! j = Some p' →
    ∃ p, players s !! j = Some p
         ∧ holdingCost p <= holdingCost p'
         ∧ stockoutPenalty p <= stockoutPenalty p'.
Proof.
  intros Hrun j p' Hp'.
  destruct (nextTurn_player _ _ _ _ _ _ _ _ Hrun Hp')
    as (p & p1 & sf & ef & jitter & Hp & Hledger & Hsame).
  destruct (specLedgerRun_fields _ _ _ _ _ _ _ _ Hledger) as (_ & _ & _ & Hh & Hs).
  exists p. split; [exact Hp |].
  assert (holdingCost p' = holdingCost p1 ∧ stockoutPenalty p' = stockoutPenalty p1)
    as (-> & ->) by (change (holdingCost p1) with (holdingCost (applyInvestment p1));
                     change (stockoutPenalty p1)
                       with (stockoutPenalty (applyInvestment p1));
                     rewrite <- Hsame; destruct p'; auto).
  auto.
Qed.

Lemma cost_accumulators_never_decrease_first_turn :
  ∃ s' k',
    let s := handleOrderChange 0 1 (-30) initialState in
    nextTurn calm normal s 0%nat = Ok (s', k')
    ∧ ∀ j p', players s' !! j = Some p' →
        ∃ p, players s !! j = Some p
             ∧ holdingCost p <= holdingCost p'
             ∧ stockoutPenalty p <= stockoutPenalty p'.
Proof.
  eexists _, _. intros s. split; [vm_compute; reflexivity |].
  eapply (cost_accumulators_never_decrease calm normal s 0%nat).
  vm_compute; reflexivity.
Defined.

(** ** When a turn returns and when it throws *)

Lemma aligned_initialState : aligned initialState.
Proof.
  split; [simpl; lia |]. split.
  - intros p Hp. apply list_elem_of_In in Hp.
    destruct Hp as [<- | [<- | []]]; simpl; repeat split; eauto.
  - intros o Ho. inversion Ho.
Qed.

Lemma productStep_no_player rnd gameMode pi s k p :
  players s = [] → products s !! pi = Some p →
  productStep rnd gameMode pi s k = Throw TypeError.
Proof.
  intros Hpl Hp.
  assert (pi < length (products s))%nat as Hpi by (eapply lookup_lt_Some; eauto).
  assert (∀ p', aiStep gameMode pi (setProducts (<[pi := p']> (products s)) s)
                = Throw TypeError) as Hai.
  { intros p'. unfold aiStep. simpl.
    rewrite list_lookup_insert_eq by exact Hpi.
    destruct (find_is_Some (fun q => Nat.eqb (p_id q) (p_id p'))
                (<[pi := p']> (products s)) p') as (q & Hq & _).
    - now apply list_elem_of_insert.
    - apply Nat.eqb_refl.
    - unfold aiStrategy. simpl. rewrite Hq, Hpl. reflexivity. }
  unfold productStep, bind, lift, fromOption. rewrite Hp, Hpl. simpl.
  unfold ret, lifecycleStep, bind, lift, fromOption, random. rewrite Hp.
  destruct (Qltb _ _); unfold ret.
  - now rewrite Hai.
  - specialize (Hai p). rewrite (list_insert_id _ _ _ Hp) in Hai.
    replace (setProducts (products s) s) with s in Hai by now destruct s.
    now rewrite Hai.
Qed.

(** X14: With a product in the catalogue and nobody seated, the turn does not
    return: the AI block reads the capacity of a player 0 that does not
    exist, and the turn throws a TypeError. *)
Theorem nextTurn_no_player rnd gameMode s k :
  players s = [] → products s ≠ [] →
  nextTurn rnd gameMode s k = Throw TypeError.
Proof.
  intros Hpl Hps.
  destruct (startTurn_returns rnd s k) as (s0 & k0 & Hstart).
  pose proof (startTurn_inv _ _ _ _ _ Hstart) as (_ & _ & _ & Hps0 & Hpl0 & _).
  destruct (products s) as [| p rest] eqn:Hprod; [congruence |].
  unfold nextTurn, bind. rewrite Hstart.
  unfold processProducts. rewrite Hps0. simpl. unfold bind.
  rewrite (productStep_no_player rnd gameMode 0 s0 k0 p); [reflexivity | |].
  - now rewrite Hpl0.
  - now rewrite Hps0.
Qed.

Lemma nextTurn_no_player_example :
  players (resizePlayers 0 initialState) = []
  ∧ products (resizePlayers 0 initialState) ≠ []
  ∧ nextTurn calm normal (resizePlayers 0 initialState) 0%nat = Throw TypeError.
Proof.
  split; [reflexivity |]. split; [discriminate |].
  apply (nextTurn_no_player calm normal (resizePlayers 0 initialState) 0%nat).
  - reflexivity.
  - discriminate.
Defined.

(** The product phase does not read the queue of offers. *)
Lemma playerStep_offers rnd pi sf lf ef q index s k s' k' :
  playerStep rnd pi sf lf ef index s k = Ok (s', k') →
  playerStep rnd pi sf lf ef index (setTradeOffers q s) k
  = Ok (setTradeOffers q s', k').
Proof.
  intros H.
  apply playerStep_inv in H
    as (p & player & sup & inv & ord & Hp & Hpl & Hsup & Hinv & Hord & -> & Hs').
  cbv zeta in Hs'. subst s'.
  unfold playerStep, bind, lift, fromOption, random, ret. simpl.
  rewrite Hp, Hpl. simpl. rewrite Hsup, Hinv, Hord. reflexivity.
Qed.

Lemma forEachIndex_transport {S} (body : nat -> S -> M S) (T : S -> S) :
  (∀ i s k s' k', body i s k = Ok (s', k') → body i (T s) k = Ok (T s', k')) →
  ∀ l s k s' k',
    forEachIndex body l s k = Ok (s', k') →
    forEachIndex body l (T s) k = Ok (T s', k').
Proof.
  intros Hbody l. induction l as [| i l IH]; simpl; intros s k s' k' Hrun.
  - apply ret_Ok in Hrun as [-> ->]. reflexivity.
  - apply bind_Ok in Hrun as (s1 & k1 & Hstep & Hrest).
    apply bind_Ok. exists (T s1), k1. auto.
Qed.

Lemma productStep_offers rnd gameMode q pi s k s' k' :
  productStep rnd gameMode pi s k = Ok (s', k') →
  productStep rnd gameMode pi (setTradeOffers q s) k = Ok (setTradeOffers q s', k').
Proof.
  unfold productStep. intros H.
  apply bind_Ok in H as (p & k0 & Hp & H). apply lift_fromOption_Ok in Hp as [Hp ->].
  apply bind_Ok in H as (s1 & k1 & Hloop & H).
  apply bind_Ok in H as (s2 & k2 & Hlife & H).
  apply lift_Ok in H as [Hai ->].
  apply bind_Ok. exists p, k. split; [now apply lift_fromOption_Ok |].
  apply bind_Ok. exists (setTradeOffers q s1), k1. split.
  { apply (forEachIndex_transport _ (setTradeOffers q)); [| exact Hloop].
    intros. now apply playerStep_offers. }
  apply bind_Ok. exists (setTradeOffers q s2), k2. split.
  { revert Hlife. unfold lifecycleStep, bind, lift, fromOption, random, ret. simpl.
    destruct (products s1 !! pi); [| discriminate].
    destruct (Qltb _ _); intros [= <- <-]; reflexivity. }
  apply lift_Ok. split; [| reflexivity].
  apply aiStep_inv in Hai as (p2 & aiOrder & inventory0 & lastDemand
                              & Hp2 & Hstrat & Hinv0 & Hlast & ->).
  unfold aiStep. simpl. rewrite Hp2.
  change (aiStrategy (setTradeOffers q s2) (p_id p2) (difficultyOf gameMode))
    with (aiStrategy s2 (p_id p2) (difficultyOf gameMode)).
  rewrite Hstrat, Hinv0, Hlast. reflexivity.
Qed.

Lemma settleTrades_unseated_payer offers : ∀ pl o,
  o ∈ offers → (length pl ≤ from o)%nat →
  settleTrades offers pl = Throw TypeError.
Proof.
  induction offers as [| o' os IH]; intros pl o Ho Hfrom; [inversion Ho |].
  simpl. destruct (settleOffer o' pl) as [pl1 | e] eqn:Hstep.
  - apply elem_of_cons in Ho as [-> | Ho].
    + unfold settleOffer in Hstep. rewrite (lookup_ge_None_2 _ _ Hfrom) in Hstep.
      discriminate.
    + apply (IH pl1 o Ho).
      apply settleOffer_setBudget, Forall2_length in Hstep. lia.
  - unfold settleOffer in Hstep.
    destruct (pl !! from o') as [payer |]; [| now injection Hstep as <-].
    destruct (Qgeb _ _); [| discriminate].
    destruct (_ !! to o'); [discriminate | now injection Hstep as <-].
Qed.

(** X15: A queued offer whose payer is not seated makes the whole turn throw a
    TypeError, on a state that is well formed apart from its queue: the
    offer is neither dropped nor skipped. *)
Theorem nextTurn_unseated_payer rnd gameMode s k o :
  aligned (setTradeOffers [] s) →
  o ∈ tradeOffers s → (length (players s) ≤ from o)%nat →
  nextTurn rnd gameMode s k = Throw TypeError.
Proof.
  intros Hal Ho Hfrom.
  destruct (nextTurn_returns rnd gameMode _ k Hal) as (t' & k' & Hrun & _).
  apply nextTurn_inv in Hrun as (t0 & k0 & t1 & Hstart & Hloop & PP & _).
  pose proof (startTurn_inv _ _ _ _ _ Hstart) as (_ & _ & _ & _ & Hpl & _).
  simpl in Hpl.
  set (T := setTradeOffers (tradeOffers s)).
  assert (startTurn rnd s k = Ok (T t0, k0)) as Hstart'.
  { unfold startTurn, bind, ret in *.
    destruct (simulateEnvironmentalEvent rnd k) as [[ev k1] |]; [| discriminate].
    injection Hstart as <- <-. reflexivity. }
  assert (processProducts rnd gameMode (T t0) k0 = Ok (T t1, k')) as Hloop'.
  { unfold processProducts in *. simpl.
    apply (forEachIndex_transport _ T); [| exact Hloop].
    intros. now apply productStep_offers. }
  unfold nextTurn, bind. rewrite Hstart', Hloop'. simpl.
  rewrite (settleTrades_unseated_payer _ _ o Ho); [reflexivity |].
  rewrite length_fmap, (pp_players_length _ _ _ _ _ PP), Hpl. exact Hfrom.
Qed.

(** An offer to player 1 is queued and then only one player stays seated:
    with the players swapped the payer is gone, and the turn throws. *)
Lemma nextTurn_unseated_payer_example :
  let s := resizePlayers 1 (handleTradeOffer 1 0 (resizePlayers 2 initialState)) in
  let o := {| from := 1; to := 0; amount := 100 |} in
  aligned (setTradeOffers [] s) ∧ o ∈ tradeOffers s
  ∧ (length (players s) ≤ from o)%nat
  ∧ nextTurn calm normal s 0%nat = Throw TypeError.
Proof.
  intros s o.
  assert (aligned (setTradeOffers [] s)) as Hal.
  { split; [simpl; lia |]. split.
    - intros p Hp. apply list_elem_of_In in Hp.
      destruct Hp as [<- | [<- | []]]; simpl; repeat split; eauto.
    - intros o' Ho'. inversion Ho'. }
  assert (o ∈ tradeOffers s) as Ho by (left).
  assert (length (players s) ≤ from o)%nat as Hfrom by (simpl; lia).
  refine (conj Hal (conj Ho (conj Hfrom _))).
  apply (nextTurn_unseated_payer calm normal s 0%nat o Hal Ho Hfrom).
Defined.

(** X13: On a well-formed state the turn returns a well-formed state with as
    many players and products as before and an empty queue, so that the
    next turn returns as well. *)
Theorem nextTurn_keeps_alignment rnd gameMode s k :
  aligned s →
  ∃ s' k',
    nextTurn rnd gameMode s k = Ok (s', k') ∧ aligned s'
    ∧ length (players s') = length (players s)
    ∧ length (products s') = length (products s)
    ∧ tradeOffers s' = []
    ∧ ∃ s'' k'', nextTurn rnd gameMode s' k' = Ok (s'', k'').
Proof.
  intros Hal.
  destruct (nextTurn_returns rnd gameMode s k Hal) as (s' & k' & Hrun & Hal').
  destruct (nextTurn_returns rnd gameMode s' k' Hal') as (s'' & k'' & Hrun' & _).
  exists s', k'. split; [exact Hrun |]. split; [exact Hal' |].
  split; [apply (nextTurn_players_length _ _ _ _ _ _ Hrun) |].
  split; [apply (nextTurn_products _ _ _ _ _ _ Hrun) |].
  split; [| eauto].
  now apply nextTurn_inv in Hrun as (? & ? & ? & _ & _ & _ & _ & _ & Hq & _).
Qed.

Lemma nextTurn_keeps_alignment_initial :
  aligned initialState
  ∧ ∃ s' k',
      nextTurn calm normal initialState 0%nat = Ok (s', k') ∧ aligned s'
      ∧ length (players s') = length (players initialState)
      ∧ length (products s') = length (products initialState)
      ∧ tradeOffers s' = []
      ∧ ∃ s'' k'', nextTurn calm normal s' k' = Ok (s'', k'').
Proof.
  split; [exact aligned_initialState |].
  apply (nextTurn_keeps_alignment calm normal initialState 0%nat aligned_initialState).
Defined.

(** ** The decision handlers *)

Lemma mapAt_lookup {A} i (f : A -> A) (xs : list A) j :
  mapAt i f xs !! j = if Nat.eqb j i then f <$> xs !! j else xs !! j.
Proof.
  unfold mapAt. rewrite list_lookup_imap.
  destruct (Nat.eqb j i); destruct (xs !! j); reflexivity.
Qed.

Lemma mapAt_length {A} i (f : A -> A) (xs : list A) :
  length (mapAt i f xs) = length xs.
Proof. unfold mapAt. apply length_imap. Qed.

Lemma mapAt_mapAt {A} i (f g : A -> A) (xs : list A) :
  mapAt i f (mapAt i g xs) = mapAt i (fun x => f (g x)) xs.
Proof.
  apply list_eq. intros j. rewrite !mapAt_lookup.
  destruct (Nat.eqb j i); [| reflexivity]. now destruct (xs !! j).
Qed.

(** X17: Placing an order writes the quantity into the slot of the player, in
    every product that carries the identity, and nowhere else: the other
    slots, the other products and all other fields stay as they were, no
    array changes its length, and a slot that is not seated is not
    created. *)
Theorem handleOrderChange_lookup playerId productId value s pi p :
  products s !! pi = Some p →
  ∃ p',
    products (handleOrderChange playerId productId value s) !! pi = Some p'
    ∧ setOrders (orders p) p' = p
    ∧ length (orders p') = length (orders p)
    ∧ ∀ j, orders p' !! j
           = if Nat.eqb (p_id p) productId && Nat.eqb j playerId
             then (fun _ => value) <$> orders p !! j
             else orders p !! j.
Proof.
  intros Hp. unfold handleOrderChange. simpl. rewrite list_lookup_fmap, Hp. simpl.
  eexists. split; [reflexivity |].
  destruct (Nat.eqb (p_id p) productId); simpl.
  - split; [now destruct p |]. split; [apply mapAt_length |].
    intros j. apply mapAt_lookup.
  - split; [now destruct p |]. auto.
Qed.

Lemma handleOrderChange_lookup_initial :
  ∃ p',
    products initialState !! 0%nat
    = Some {| p_id := 1; p_name := "製品A"; inventory := [50]; demandHistory := [];
              orders := [0]; lifecycle := introduction; supplier := 1 |}
    ∧ products (handleOrderChange 0 1 10 initialState) !! 0%nat = Some p'
    ∧ orders p' !! 0%nat = Some 10.
Proof.
  destruct (handleOrderChange_lookup 0 1 10 initialState 0
              {| p_id := 1; p_name := "製品A"; inventory := [50]; demandHistory := [];
                 orders := [0]; lifecycle := introduction; supplier := 1 |}
              eq_refl) as (p' & Hp' & _ & _ & Hord).
  exists p'. split; [reflexivity |]. split; [exact Hp' |]. apply (Hord 0%nat).
Defined.

(** X18: An order or a supplier choice for a product identity that no product
    carries is ignored without an error: the state comes back unchanged. *)
Theorem handlers_unknown_product playerId productId value supplierId s :
  (∀ p, p ∈ products s → p_id p ≠ productId) →
  handleOrderChange playerId productId value s = s
  ∧ handleSupplierChange playerId productId supplierId s = s.
Proof.
  intros Hnone.
  assert (∀ f : Product -> Product,
            ((fun product => if Nat.eqb (p_id product) productId
                             then f product else product) <$> products s)
            = products s) as Hid.
  { intros f. apply list_eq. intros i. rewrite list_lookup_fmap.
    destruct (products s !! i) as [p |] eqn:Hp; [| reflexivity]. simpl.
    assert (p_id p ≠ productId) as Hne
      by (apply Hnone; eapply list_elem_of_lookup_2; eauto).
    apply Nat.eqb_neq in Hne. now rewrite Hne. }
  unfold handleOrderChange, handleSupplierChange.
  rewrite (Hid (fun product =>
                  setOrders (mapAt playerId (fun _ => value) (orders product)) product)).
  rewrite (Hid (setSupplier supplierId)).
  split; now destruct s.
Qed.

Lemma handlers_unknown_product_initial :
  handleOrderChange 0 7 10 initialState = initialState
  ∧ handleSupplierChange 0 7 3 initialState = initialState.
Proof.
  apply (handlers_unknown_product 0 7 10 3 initialState).
  intros p Hp. apply list_elem_of_In in Hp.
  destruct Hp as [<- | [<- | []]]; simpl; lia.
Defined.

(** X19: The handlers overwrite: of two orders for the same slot and product, or
    two investments of the same kind for the same player, only the later
    one is left in the state. *)
Theorem handlers_last_write_wins playerId productId kind v w s :
  handleOrderChange playerId productId v (handleOrderChange playerId productId w s)
  = handleOrderChange playerId productId v s
  ∧ handleInvestmentChange playerId kind v (handleInvestmentChange playerId kind w s)
    = handleInvestmentChange playerId kind v s.
Proof.
  split.
  - unfold handleOrderChange, setProducts. simpl. f_equal.
    rewrite <- list_fmap_compose. apply list_fmap_ext. intros i p _. simpl.
    destruct (Nat.eqb (p_id p) productId) eqn:Hid; simpl; rewrite Hid;
      [| reflexivity].
    unfold setOrders. simpl. f_equal. apply mapAt_mapAt.
  - unfold handleInvestmentChange, setPlayers. simpl. f_equal.
    rewrite mapAt_mapAt. apply list_eq. intros j. rewrite !mapAt_lookup.
    destruct (Nat.eqb j playerId); [| reflexivity].
    destruct (players s !! j); [| reflexivity]. now destruct kind.
Qed.

(** ** Seating and unseating players *)

(** X20: After a resize the number of players is the one asked for, and on a
    state whose arrays were aligned every product has that many inventory
    and order entries. *)
Theorem resizePlayers_aligned playerCount s :
  (∀ p, p ∈ products s →
     length (inventory p) = length (players s)
     ∧ length (orders p) = length (players s)) →
  length (players (resizePlayers playerCount s)) = playerCount
  ∧ ∀ p', p' ∈ products (resizePlayers playerCount s) →
      length (inventory p') = playerCount ∧ length (orders p') = playerCount.
Proof.
  intros Hal. unfold resizePlayers.
  destruct (Nat.ltb_spec (length (players s)) playerCount) as [Hlt | Hge]; simpl.
  - split; [rewrite length_app, length_replicate; lia |].
    intros p' Hp'. apply list_elem_of_fmap in Hp' as (p & -> & Hp).
    destruct (Hal p Hp) as [Hi Ho]. simpl.
    rewrite !length_app, !length_replicate. lia.
  - destruct (Nat.ltb_spec playerCount (length (players s))) as [Hlt | Hge']; simpl.
    + split; [rewrite length_take; lia |].
      intros p' Hp'. apply list_elem_of_fmap in Hp' as (p & -> & Hp).
      destruct (Hal p Hp) as [Hi Ho]. simpl. rewrite !length_take. lia.
    + split; [lia |]. intros p' Hp'. destruct (Hal p' Hp'). lia.
Qed.

Lemma resizePlayers_aligned_initial :
  (∀ p, p ∈ products initialState →
     length (inventory p) = length (players initialState)
     ∧ length (orders p) = length (players initialState))
  ∧ length (players (resizePlayers 3 initialState)) = 3%nat
  ∧ ∀ p', p' ∈ products (resizePlayers 3 initialState) →
      length (inventory p') = 3%nat ∧ length (orders p') = 3%nat.
Proof.
  assert (∀ p, p ∈ products initialState →
            length (inventory p) = length (players initialState)
            ∧ length (orders p) = length (players initialState)) as Hal.
  { intros p Hp. apply list_elem_of_In in Hp.
    destruct Hp as [<- | [<- | []]]; simpl; auto. }
  split; [exact Hal |]. apply (resizePlayers_aligned 3 initialState Hal).
Defined.

(** X21: A resize keeps the players that stay seated, with their inventory and
    order entries, and seats every new player with a budget of 1000, a
    capacity of 100, an inventory of 50 and no pending order. *)
Theorem resizePlayers_entries playerCount s pi p j :
  products s !! pi = Some p →
  length (inventory p) = length (players s) →
  length (orders p) = length (players s) →
  (j < playerCount)%nat →
  ∃ p',
    products (resizePlayers playerCount s) !! pi = Some p'
    ∧ if Nat.ltb j (length (players s))
      then players (resizePlayers playerCount s) !! j = players s !! j
           ∧ inventory p' !! j = inventory p !! j
           ∧ orders p' !! j = orders p !! j
      else players (resizePlayers playerCount s) !! j = Some newPlayer
           ∧ inventory p' !! j = Some 50 ∧ orders p' !! j = Some 0.
Proof.
  intros Hp Hi Ho Hj. unfold resizePlayers.
  destruct (Nat.ltb_spec (length (players s)) playerCount) as [Hlt | Hge]; simpl.
  - rewrite list_lookup_fmap, Hp. simpl. eexists. split; [reflexivity |]. simpl.
    destruct (Nat.ltb_spec j (length (players s))) as [Hjl | Hjg].
    + rewrite !lookup_app_l by lia. auto.
    + rewrite !lookup_app_r by lia.
      rewrite !lookup_replicate_2 by lia. auto.
  - assert (Nat.ltb j (length (players s)) = true) as -> by (apply Nat.ltb_lt; lia).
    destruct (Nat.ltb_spec playerCount (length (players s))) as [Hlt | Hge']; simpl.
    + rewrite list_lookup_fmap, Hp. simpl. eexists. split; [reflexivity |]. simpl.
      rewrite !lookup_take_lt by lia. auto.
    + exists p. auto.
Qed.

Lemma resizePlayers_entries_initial :
  ∃ p',
    products (resizePlayers 2 initialState) !! 0%nat = Some p'
    ∧ players (resizePlayers 2 initialState) !! 1%nat = Some newPlayer
    ∧ inventory p' !! 1%nat = Some 50 ∧ orders p' !! 1%nat = Some 0.
Proof.
  destruct (resizePlayers_entries 2 initialState 0
              {| p_id := 1; p_name := "製品A"; inventory := [50]; demandHistory := [];
                 orders := [0]; lifecycle := introduction; supplier := 1 |} 1
              eq_refl eq_refl eq_refl ltac:(lia)) as (p' & Hp' & H).
  exists p'. split; [exact Hp' |]. exact H.
Defined.

(** X22: Seating more players and then going back to the former number restores
    the state, when its arrays were aligned. *)
Theorem resizePlayers_grow_shrink playerCount s :
  (∀ p, p ∈ products s →
     length (inventory p) = length (players s)
     ∧ length (orders p) = length (players s)) →
  (length (players s) ≤ playerCount)%nat →
  resizePlayers (length (players s)) (resizePlayers playerCount s) = s.
Proof.
  intros Hal Hle.
  assert (length (players (resizePlayers playerCount s)) = playerCount) as Hlen.
  { unfold resizePlayers.
    destruct (Nat.ltb_spec (length (players s)) playerCount); simpl.
    - rewrite length_app, length_replicate. lia.
    - destruct (Nat.ltb_spec playerCount (length (players s))); simpl; lia. }
  unfold resizePlayers at 1. rewrite Hlen.
  destruct (Nat.ltb_spec playerCount (length (players s))) as [Hlt | _]; [lia |].
  destruct (Nat.ltb_spec (length (players s)) playerCount) as [Hlt | Heq].
  - unfold resizePlayers.
    assert (Nat.ltb (length (players s)) playerCount = true) as ->
      by now apply Nat.ltb_lt.
    simpl. rewrite take_app_length.
    rewrite <- list_fmap_compose.
    assert (∀ f, (∀ p, p ∈ products s → f p = p) → f <$> products s = products s)
      as Hid.
    { intros f Hf. apply list_eq. intros i. rewrite list_lookup_fmap.
      destruct (products s !! i) as [p |] eqn:Hp; [| reflexivity]. simpl.
      f_equal. apply Hf. eapply list_elem_of_lookup_2; eauto. }
    rewrite Hid; [now destruct s |].
    intros p Hp. destruct (Hal p Hp) as [Hi Ho]. simpl.
    rewrite (take_app_length' (inventory p)) by now symmetry.
    rewrite (take_app_length' (orders p)) by now symmetry.
    now destruct p.
  - unfold resizePlayers.
    assert (Nat.ltb (length (players s)) playerCount = false) as ->
      by (apply Nat.ltb_ge; lia).
    assert (Nat.ltb playerCount (length (players s)) = false) as ->
      by (apply Nat.ltb_ge; lia).
    reflexivity.
Qed.

Lemma resizePlayers_grow_shrink_initial :
  resizePlayers (length (players initialState)) (resizePlayers 4 initialState)
  = initialState.
Proof.
  apply (resizePlayers_grow_shrink 4 initialState).
  - intros p Hp. apply list_elem_of_In in Hp.
    destruct Hp as [<- | [<- | []]]; simpl; auto.
  - simpl. lia.
Defined.

(** ** The chart *)

(** In exact arithmetic the two identities hold in every state the game
    reaches. *)
Lemma reachable_balanced s applied :
  reachable s applied → Forall2 ledgerBalanced applied (players s).
Proof.
  induction 1 as [| c s applied _ IH | rnd gameMode k s applied s' k' _ IH Hrun].
  - repeat constructor.
  - now apply runCommand_balanced.
  - eapply nextTurn_balanced; eauto.
Qed.

Lemma runCommand_histories c s :
  turn (runCommand c s) = turn s
  ∧ ∃ f : Product -> Product,
      products (runCommand c s) = f <$> products s
      ∧ ∀ p, demandHistory (f p) = demandHistory p.
Proof.
  split; [destruct c; simpl; try reflexivity; unfold resizePlayers;
          repeat destruct (Nat.ltb _ _); reflexivity |].
  destruct c as [playerId productId v | ? ? ? | ? productId sid | ? ? | playerCount];
    simpl.
  - eexists. split; [reflexivity |]. intros p. simpl.
    now destruct (Nat.eqb (p_id p) productId).
  - exists id. split; [now rewrite list_fmap_id | reflexivity].
  - eexists. split; [reflexivity |]. intros p. simpl.
    now destruct (Nat.eqb (p_id p) productId).
  - exists id. split; [now rewrite list_fmap_id | reflexivity].
  - unfold resizePlayers. destruct (Nat.ltb _ _); [| destruct (Nat.ltb _ _)]; simpl.
    + eexists. split; [reflexivity |]. reflexivity.
    + eexists. split; [reflexivity |]. reflexivity.
    + exists id. split; [now rewrite list_fmap_id | reflexivity].
Qed.

Lemma nextTurn_seated rnd gameMode s k s' k' :
  nextTurn rnd gameMode s k = Ok (s', k') → products s ≠ [] →
  (0 < length (players s))%nat.
Proof.
  intros Hrun Hps.
  destruct (players s) as [| p0 pl] eqn:Hpl; [| simpl; lia].
  exfalso.
  destruct (startTurn_returns rnd s k) as (s0 & k0 & Hstart).
  pose proof (startTurn_inv _ _ _ _ _ Hstart) as (_ & _ & _ & Hps0 & Hpl0 & _).
  destruct (products s) as [| p rest] eqn:Hprod; [congruence |].
  unfold nextTurn, bind in Hrun. rewrite Hstart in Hrun.
  unfold processProducts in Hrun. rewrite Hps0 in Hrun. simpl in Hrun.
  unfold bind in Hrun.
  rewrite (productStep_no_player rnd gameMode 0 s0 k0 p) in Hrun;
    [discriminate | now rewrite Hpl0, Hpl | now rewrite Hps0].
Qed.

(** X24: In every state the game reaches, the chart has one label per turn
    counted, numbered from 1, and one series per product; all series have
    the same number of points, which is at least the number of turns
    played.  A turn that returns from such a state was played with at least
    one player seated; it adds one label, and to every series as many
    points as players are seated. *)
Theorem chartData_reachable s applied :
  reachable s applied →
  labels (chartData s) = seq 1 (turn s)
  ∧ length (datasets (chartData s)) = length (products s)
  ∧ (∃ n, (turn s - 1 ≤ n)%nat
          ∧ ∀ d, d ∈ datasets (chartData s) → length (d_data d) = n)
  ∧ ∀ rnd gameMode k s' k',
      nextTurn rnd gameMode s k = Ok (s', k') →
      (0 < length (players s))%nat
      ∧ length (labels (chartData s')) = S (length (labels (chartData s)))
      ∧ ∀ i d', datasets (chartData s') !! i = Some d' →
          ∃ d, datasets (chartData s) !! i = Some d
               ∧ length (d_data d')
                 = (length (d_data d) + length (players s))%nat.
Proof.
  intros Hreach.
  split; [unfold chartData; simpl; rewrite <- fmap_S_seq; apply list_fmap_ext;
          intros; simpl; lia |].
  split; [unfold chartData; simpl; now rewrite length_fmap |].
  assert (products s ≠ []
          ∧ ∃ n, (turn s - 1 ≤ n)%nat
                 ∧ ∀ p, p ∈ products s → length (demandHistory p) = n) as [Hne Hinv].
  { induction Hreach as [| c s applied _ IH | rnd gameMode k s applied s' k' _ IH Hrun].
    - split; [discriminate |]. exists 0%nat. split; [simpl; lia |].
      intros p Hp. apply list_elem_of_In in Hp.
      destruct Hp as [<- | [<- | []]]; reflexivity.
    - destruct IH as (Hne & n & Hn & Hall).
      destruct (runCommand_histories c s) as (Hturn & f & Hps & Hf).
      split.
      + rewrite Hps. destruct (products s); [congruence | discriminate].
      + exists n. rewrite Hturn. split; [exact Hn |].
        intros p' Hp'. rewrite Hps in Hp'.
        apply list_elem_of_fmap in Hp' as (p & -> & Hp). rewrite Hf. auto.
    - destruct IH as (Hne & n & Hn & Hall).
      pose proof (nextTurn_seated _ _ _ _ _ _ Hrun Hne) as Hseated.
      destruct (nextTurn_products _ _ _ _ _ _ Hrun) as [Hlen Hprods].
      assert (turn s' = (turn s + 1)%nat) as Hturn.
      { apply nextTurn_inv in Hrun
          as (s0 & k0 & s1 & Hstart & _ & _ & _ & _ & _ & _ & Ht & _).
        apply startTurn_inv in Hstart as (Ht0 & _). congruence. }
      split.
      + destruct (products s'); [| discriminate].
        destruct (products s); [congruence | discriminate].
      + exists (n + length (players s))%nat. split; [lia |].
        intros p' Hp'. apply list_elem_of_lookup in Hp' as [pi Hp'].
        destruct (Hprods pi p' Hp') as (p & Hp & SS).
        rewrite (ss_history _ _ _ _ _ SS), length_app, length_fmap, length_seq.
        rewrite (Hall p); [reflexivity | eapply list_elem_of_lookup_2; eauto]. }
  split.
  { destruct Hinv as (n & Hn & Hall). exists n. split; [exact Hn |].
    intros d Hd. unfold chartData in Hd. simpl in Hd.
    apply list_elem_of_fmap in Hd as (p & -> & Hp). simpl. auto. }
  intros rnd gameMode k s' k' Hrun.
  split; [exact (nextTurn_seated _ _ _ _ _ _ Hrun Hne) |]. split.
  - unfold chartData. simpl. rewrite !length_fmap, !length_seq.
    apply nextTurn_inv in Hrun
      as (s0 & k0 & s1 & Hstart & _ & _ & _ & _ & _ & _ & Ht & _).
    apply startTurn_inv in Hstart as (Ht0 & _). lia.
  - intros i d' Hd'. unfold chartData in Hd' |- *. simpl in Hd' |- *.
    rewrite list_lookup_fmap in Hd'.
    destruct (products s' !! i) as [p' |] eqn:Hp'; [| discriminate].
    simpl in Hd'. injection Hd' as <-.
    destruct (nextTurn_products _ _ _ _ _ _ Hrun) as [_ Hprods].
    destruct (Hprods i p' Hp') as (p & Hp & SS).
    rewrite list_lookup_fmap, Hp. simpl. eexists. split; [reflexivity |]. simpl.
    now rewrite (ss_history _ _ _ _ _ SS), length_app, length_fmap, length_seq.
Qed.

(** The chart after one turn with two players seated, and over the turn
    that follows. *)
Lemma chartData_reachable_two_players :
  ∃ s k,
    let s0 := runCommand (ResizePlayers 2) initialState in
    nextTurn calm normal s0 0%nat = Ok (s, k)
    ∧ reachable s (appliedAfterTurn (players s0) (appliedAfter (ResizePlayers 2) [0]))
    ∧ labels (chartData s) = seq 1 (turn s)
    ∧ length (datasets (chartData s)) = length (products s)
    ∧ (∃ n, (turn s - 1 ≤ n)%nat
            ∧ ∀ d, d ∈ datasets (chartData s) → length (d_data d) = n)
    ∧ ∀ rnd gameMode k s' k',
        nextTurn rnd gameMode s k = Ok (s', k') →
        (0 < length (players s))%nat
        ∧ length (labels (chartData s')) = S (length (labels (chartData s)))
        ∧ ∀ i d', datasets (chartData s') !! i = Some d' →
            ∃ d, datasets (chartData s) !! i = Some d
                 ∧ length (d_data d')
                   = (length (d_data d) + length (players s))%nat.
Proof.
  eexists _, _. intros s0.
  assert (nextTurn calm normal s0 0%nat = Ok _) as Hrun by (vm_compute; reflexivity).
  split; [exact Hrun |].
  pose proof (reachable_turn _ _ _ _ _ _ _
                (reachable_command (ResizePlayers 2) _ _ reachable_initial)
                Hrun) as Hreach.
  split; [exact Hreach |].
  apply (chartData_reachable _ _ Hreach).
Defined.

(** ** Invariants of the reachable states *)

Lemma runCommand_season c s :
  turn (runCommand c s) = turn s ∧ currentSeason (runCommand c s) = currentSeason s
  ∧ seasonalFactors (runCommand c s) = seasonalFactors s.
Proof.
  destruct c; simpl; auto.
  unfold resizePlayers. repeat destruct (Nat.ltb _ _); auto.
Qed.

(** X26: In every state the game reaches, the seasonal factors are those of the
    initial state; the game starts in spring on turn 1, and once a turn has
    been played the season is the entry of the four-season list at the turn
    counter modulo 4, so that the turn after the spring of the start is an
    autumn. *)
Theorem reachable_season s applied :
  reachable s applied →
  seasonalFactors s = initialSeasonalFactors
  ∧ ((turn s = 1%nat ∧ currentSeason s = spring)
     ∨ ((2 ≤ turn s)%nat ∧ currentSeason s = seasonOfTurn (turn s))).
Proof.
  induction 1 as [| c s applied _ IH | rnd gameMode k s applied s' k' _ IH Hrun].
  - split; [reflexivity | left; auto].
  - destruct (runCommand_season c s) as (-> & -> & ->). exact IH.
  - destruct IH as [Hfac Hturn].
    apply nextTurn_inv in Hrun
      as (s0 & k0 & s1 & Hstart & _ & _ & _ & _ & _ & _ & Ht & Hs & Hf & _).
    apply startTurn_inv in Hstart as (Ht0 & Hs0 & Hf0 & _).
    split; [congruence |]. right.
    rewrite Ht, Hs, Ht0, Hs0. split; [| reflexivity].
    destruct Hturn as [[-> _] | [Hge _]]; lia.
Qed.

Lemma reachable_season_second_turn :
  ∃ s applied,
    reachable s applied
    ∧ seasonalFactors s = initialSeasonalFactors
    ∧ ((turn s = 1%nat ∧ currentSeason s = spring)
       ∨ ((2 ≤ turn s)%nat ∧ currentSeason s = seasonOfTurn (turn s))).
Proof.
  assert (∃ s' k', nextTurn calm normal initialState 0%nat = Ok (s', k'))
    as (s' & k' & Hrun) by (eexists _, _; vm_compute; reflexivity).
  pose proof (reachable_turn _ _ _ _ _ _ _ reachable_initial Hrun) as Hreach.
  eexists _, _. split; [exact Hreach |].
  apply (reachable_season _ _ Hreach).
Defined.

Lemma reachable_factors s applied :
  reachable s applied → seasonalFactors s = initialSeasonalFactors.
Proof.
  induction 1 as [| c s applied _ IH | rnd gameMode k s applied s' k' _ IH Hrun].
  - reflexivity.
  - now destruct (runCommand_season c s) as (_ & _ & ->).
  - apply nextTurn_inv in Hrun
      as (s0 & k0 & s1 & Hstart & _ & _ & _ & _ & _ & _ & _ & _ & Hf & _).
    apply startTurn_inv in Hstart as (_ & _ & Hf0 & _). congruence.
Qed.

(** X27: In every state the game reaches, every entry of every demand history is
    a non-negative integer. *)
Theorem reachable_histories s applied :
  reachable s applied →
  ∀ p, p ∈ products s →
    Forall (fun d => 0 <= d ∧ ∃ z : Z, d = inject_Z z) (demandHistory p).
Proof.
  induction 1 as [| c s applied Hreach IH | rnd gameMode k s applied s' k' Hreach IH Hrun];
    intros p' Hp'.
  - apply list_elem_of_In in Hp'. destruct Hp' as [<- | [<- | []]]; constructor.
  - destruct (runCommand_histories c s) as (_ & f & Hps & Hf).
    rewrite Hps in Hp'. apply list_elem_of_fmap in Hp' as (p & -> & Hp).
    rewrite Hf. auto.
  - pose proof (reachable_factors _ _ Hreach) as Hfac.
    destruct (nextTurn_event_factor _ _ _ _ _ _ Hrun) as [Hef _].
    destruct (nextTurn_products _ _ _ _ _ _ Hrun) as [_ Hall].
    apply list_elem_of_lookup in Hp' as [pi Hp'].
    destruct (Hall pi p' Hp') as (p & Hp & SS).
    rewrite (ss_history _ _ _ _ _ SS). apply Forall_app. split.
    + apply IH. eapply list_elem_of_lookup_2; eauto.
    + apply Forall_fmap, Forall_forall. intros j _. simpl. split.
      * apply realizedDemand_nonneg; [| lra].
        rewrite Hfac. destruct (currentSeason s'); vm_compute; discriminate.
      * eexists. reflexivity.
Qed.

Lemma reachable_histories_second_turn :
  ∃ s applied,
    reachable s applied
    ∧ ∀ p, p ∈ products s →
        Forall (fun d => 0 <= d ∧ ∃ z : Z, d = inject_Z z) (demandHistory p).
Proof.
  assert (∃ s' k', nextTurn calm normal initialState 0%nat = Ok (s', k'))
    as (s' & k' & Hrun) by (eexists _, _; vm_compute; reflexivity).
  pose proof (reachable_turn _ _ _ _ _ _ _ reachable_initial Hrun) as Hreach.
  eexists _, _. split; [exact Hreach |].
  apply (reachable_histories _ _ Hreach).
Defined.

Lemma length_eq_of_lookup {A} (l l' : list A) :
  (∀ j, is_Some (l' !! j) ↔ is_Some (l !! j)) → length l' = length l.
Proof.
  intros H.
  destruct (Nat.lt_trichotomy (length l') (length l)) as [Hlt | [Heq | Hgt]];
    [| exact Heq |]; exfalso.
  - pose proof (proj2 (H (length l')) (lookup_lt_is_Some_2 _ _ Hlt)) as Hs.
    apply lookup_lt_is_Some_1 in Hs. lia.
  - pose proof (proj1 (H (length l)) (lookup_lt_is_Some_2 _ _ Hgt)) as Hs.
    apply lookup_lt_is_Some_1 in Hs. lia.
Qed.

Lemma SlotsSold_lengths sf ef np p p' :
  SlotsSold sf ef np p p' →
  length (inventory p') = length (inventory p)
  ∧ length (orders p') = length (orders p).
Proof.
  intros SS. split; apply length_eq_of_lookup; intros j;
    (destruct (Nat.lt_ge_cases j np) as [Hlt | Hge];
     [destruct (ss_done _ _ _ _ _ SS j Hlt)
        as (sup & inv & ord & _ & Hinv & Hord & Hinv' & Hord');
      rewrite ?Hinv, ?Hord, ?Hinv', ?Hord'; split; eauto
     | destruct (ss_rest _ _ _ _ _ SS j Hge) as [Hr1 Hr2];
       rewrite ?Hr1, ?Hr2; reflexivity]).
Qed.

(** X28: In every state the game reaches, every product has exactly one
    inventory entry and one order entry per seated player, and no
    inventory entry is negative. *)
Theorem reachable_arrays_aligned s applied :
  reachable s applied →
  ∀ p, p ∈ products s →
    length (inventory p) = length (players s)
    ∧ length (orders p) = length (players s)
    ∧ Forall (fun x => 0 <= x) (inventory p).
Proof.
  induction 1 as [| c s applied Hreach IH | rnd gameMode k s applied s' k' Hreach IH Hrun];
    intros p' Hp'.
  - apply list_elem_of_In in Hp'.
    destruct Hp' as [<- | [<- | []]]; simpl; repeat split;
      repeat constructor; vm_compute; discriminate.
  - destruct c as [playerId productId v | ? ? ? | ? productId sid | ? ? | playerCount];
      simpl in Hp' |- *; try (apply IH; exact Hp').
    + apply list_elem_of_fmap in Hp' as (p & -> & Hp).
      destruct (IH p Hp) as (Hi & Ho & Hnn).
      destruct (Nat.eqb (p_id p) productId); simpl; auto.
      rewrite mapAt_length. auto.
    + unfold mapAt. rewrite length_imap. apply IH; exact Hp'.
    + apply list_elem_of_fmap in Hp' as (p & -> & Hp).
      destruct (IH p Hp) as (Hi & Ho & Hnn).
      destruct (Nat.eqb (p_id p) productId); simpl; auto.
    + revert Hp'. unfold resizePlayers.
      destruct (Nat.ltb_spec (length (players s)) playerCount) as [Hlt | Hge]; simpl.
      * intros Hp'. apply list_elem_of_fmap in Hp' as (p & -> & Hp).
        destruct (IH p Hp) as (Hi & Ho & Hnn). simpl.
        rewrite !length_app, !length_replicate.
        split; [lia |]. split; [lia |].
        apply Forall_app. split; [exact Hnn |].
        apply Forall_replicate. vm_compute; discriminate.
      * destruct (Nat.ltb_spec playerCount (length (players s))) as [Hlt | Hge'];
          simpl; [| apply IH].
        intros Hp'. apply list_elem_of_fmap in Hp' as (p & -> & Hp).
        destruct (IH p Hp) as (Hi & Ho & Hnn). simpl.
        rewrite !length_take.
        split; [lia |]. split; [lia |]. now apply Forall_take.
  - pose proof (nextTurn_players_length _ _ _ _ _ _ Hrun) as Hpl.
    destruct (nextTurn_products _ _ _ _ _ _ Hrun) as [_ Hall].
    apply list_elem_of_lookup in Hp' as [pi Hp'].
    destruct (Hall pi p' Hp') as (p & Hp & SS).
    destruct (IH p) as (Hi & Ho & Hnn); [eapply list_elem_of_lookup_2; eauto |].
    destruct (SlotsSold_lengths _ _ _ _ _ SS) as [Hi' Ho'].
    rewrite Hpl, Hi', Ho'. split; [exact Hi |]. split; [exact Ho |].
    apply Forall_lookup. intros j x Hx.
    assert (j < length (players s))%nat as Hj.
    { apply lookup_lt_Some in Hx. lia. }
    destruct (ss_done _ _ _ _ _ SS j Hj) as (sup & inv & ord & _ & _ & _ & Hnew & _).
    rewrite Hx in Hnew. injection Hnew as ->. apply Q.le_max_l.
Qed.

Lemma reachable_arrays_aligned_two_players :
  ∃ s applied,
    reachable s applied
    ∧ ∀ p, p ∈ products s →
        length (inventory p) = length (players s)
        ∧ length (orders p) = length (players s)
        ∧ Forall (fun x => 0 <= x) (inventory p).
Proof.
  assert (∃ s' k',
            nextTurn calm normal (runCommand (ResizePlayers 2) initialState)
              0%nat = Ok (s', k')) as (s' & k' & Hrun)
    by (eexists _, _; vm_compute; reflexivity).
  pose proof (reachable_turn _ _ _ _ _ _ _
                (reachable_command (ResizePlayers 2) _ _ reachable_initial)
                Hrun) as Hreach.
  eexists _, _. split; [exact Hreach |].
  apply (reachable_arrays_aligned _ _ Hreach).
Defined.

(** A turn on a state with a product, an empty queue and no negative
    pending investment, here the first turn of a new game. *)
Lemma budget_ceiling_without_transfers_first_turn :
  ∃ s' k',
    nextTurn calm normal initialState 0%nat = Ok (s', k')
    ∧ products initialState ≠ [] ∧ tradeOffers initialState = []
    ∧ ∀ j pl pl',
        players initialState !! j = Some pl →
        0 <= rdInvestment pl + facilityInvestment pl →
        players s' !! j = Some pl' → budget pl' <= 2000.
Proof.
  eexists _, _. split; [vm_compute; reflexivity |].
  split; [discriminate |]. split; [reflexivity |].
  eapply (budget_ceiling_without_transfers calm normal initialState 0%nat).
  - vm_compute; reflexivity.
  - discriminate.
  - reflexivity.
Defined.

(** ** The ledger as the program stores it (C4) *)

Section DoublesLedger.
Import PrimFloat.


End DoublesLedger.

Lemma specLedgerRun_amounts sf ef j jitter ps : ∀ i pl pl',
  specLedgerRun sf ef j jitter i ps pl = Some pl' →
  ∃ amounts,
    Forall2 (fun product a => stepAmounts sf ef j product = Some a) ps amounts
    ∧ revenue pl' = fold_left (fun acc a => acc + a_revenue a) amounts (revenue pl)
    ∧ holdingCost pl'
      = fold_left (fun acc a => acc + a_holdingCost a) amounts (holdingCost pl)
    ∧ stockoutPenalty pl'
      = fold_left (fun acc a => acc + a_stockoutPenalty a) amounts (stockoutPenalty pl)
    ∧ orderCost pl' = fold_left (fun acc a => acc + a_orderCost a) amounts (orderCost pl)
    ∧ score pl'
      = fold_left
          (fun acc a =>
             acc + (a_revenue a - a_holdingCost a - a_stockoutPenalty a - a_orderCost a))
          amounts (score pl)
    ∧ expenses pl'
      = fold_left
          (fun acc a => acc + (a_holdingCost a + a_stockoutPenalty a + a_orderCost a))
          amounts (expenses pl).
Proof.
  induction ps as [| p ps IH]; simpl; intros i pl pl' Hrun.
  - injection Hrun as <-. exists []. repeat split; constructor.
  - destruct (specSlotStep sf ef j (jitter i) p pl) as [pl1 |] eqn:Hstep;
      [| discriminate].
    simpl in Hrun. unfold specSlotStep in Hstep.
    destruct (findSupplier (supplier p)) as [sup |] eqn:Hsup; [| discriminate].
    destruct (inventory p !! j) as [inv |] eqn:Hinv; [| discriminate].
    destruct (orders p !! j) as [ord |] eqn:Hord; [| discriminate].
    simpl in Hstep. injection Hstep as <-.
    destruct (IH _ _ _ Hrun) as (amounts & Hall & Hr & Hh & Hs & Ho & Hsc & He).
    eexists (_ :: amounts). split.
    + constructor; [| exact Hall]. unfold stepAmounts.
      rewrite Hsup, Hinv, Hord. reflexivity.
    + simpl. rewrite Hr, Hh, Hs, Ho, Hsc, He. repeat split.
Qed.

(** The player a turn returns in slot [j], with the season and the event of
    that turn. *)
Lemma nextTurn_ledger rnd gameMode s k s' k' j p' :
  nextTurn rnd gameMode s k = Ok (s', k') →
  players s' !! j = Some p' →
  ∃ p p1 jitter,
    players s !! j = Some p
    ∧ specLedgerRun (seasonalFactors s (currentSeason s'))
        (environmentalFactorOf (environmentalEvent s')) j jitter 0 (products s) p
      = Some p1
    ∧ setBudget (budget (applyInvestment p1)) p' = applyInvestment p1.
Proof.
  intros Hrun Hp'.
  apply nextTurn_inv in Hrun
    as (s0 & k0 & s1 & Hstart & _ & PP & Hsettle & _ & _ & _ & _ & Hseason & _ & Hev).
  apply startTurn_inv in Hstart as (_ & _ & Hfac & Hps & Hpl & _).
  apply settleTrades_setBudget in Hsettle.
  destruct (Forall2_lookup_r _ _ _ _ _ Hsettle Hp') as (q & Hq & Hsame).
  rewrite list_lookup_fmap in Hq.
  destruct (players s1 !! j) as [p1 |] eqn:Hp1; [| discriminate].
  simpl in Hq. injection Hq as <-.
  assert (j < length (players s))%nat as Hj.
  { apply lookup_lt_Some in Hp1.
    now rewrite (pp_players_length _ _ _ _ _ PP), Hpl in Hp1. }
  destruct (lookup_lt_is_Some_2 _ _ Hj) as [p Hp].
  pose proof (pp_players _ _ _ _ _ PP j p) as Hledger.
  rewrite Hfac, <- Hseason, <- Hev, Hpl, Hps, take_ge, Hp1 in Hledger by lia.
  specialize (Hledger Hp).
  exists p, p1. eexists. split; [exact Hp |]. split; [symmetry; exact Hledger |].
  exact Hsame.
Qed.


